(** * libscm: region recycling and descriptor expiration

    A shallow embedding of [src/regions.c] ([recycle_region],
    [expire_reg_descriptor_if_exists]) and of the atomic primitives of
    [src/arch.h] it relies on, followed by the properties of the
    reclamation core.

    Target assumptions (the sources are x86 only, see the guard in
    [arch.h]): LP64, so [unsigned long] and pointers are 64 bits wide and
    [int]/[unsigned] are 32 bits wide.  Pointers are addresses in [Z],
    [NULL] is [0]. *)

From stdpp Require Import gmap list.
From Stdlib Require Import ZArith Lia.

Local Open Scope Z_scope.

(** ** Machine integers *)

(** Value of an [unsigned long] expression: arithmetic wraps modulo 2^64. *)
Definition ulong (z : Z) : Z := z mod 2 ^ 64.

(** Value of an [unsigned long long] expression. *)
Definition ullong (z : Z) : Z := z mod 2 ^ 64.

(** Value of an [unsigned int] expression. *)
Definition uint (z : Z) : Z := z mod 2 ^ 32.

(** Value of an [int] expression as the hardware computes it (two's
    complement wrap-around, as [xaddl] does). *)
Definition sint (z : Z) : Z := (z + 2 ^ 31) mod 2 ^ 32 - 2 ^ 31.

(** ** Atomic primitives ([arch.h])

    Every primitive is one [lock]-prefixed instruction, hence one
    indivisible step on the memory cell: it maps the cell's content to the
    value returned and the cell's new content. *)
Module Arch.

(** [lock; xaddl]: the cell receives [atomic + val], the old content is
    returned. *)
Definition atomic_int_exchange_and_add (atomic val : Z) : Z * Z :=
  (atomic, sint (atomic + val)).

(** [#define atomic_int_dec_and_test(atomic)
      (atomic_int_exchange_and_add((atomic), -1) == 1)] *)
Definition atomic_int_dec_and_test (atomic : Z) : bool * Z :=
  let '(result, atomic') := atomic_int_exchange_and_add atomic (-1) in
  (result =? 1, atomic').

(** [lock; addl] *)
Definition atomic_int_add (atomic val : Z) : Z := sint (atomic + val).

(** [#define atomic_int_inc(atomic) (atomic_int_add((atomic), 1))] *)
Definition atomic_int_inc (atomic : Z) : Z := atomic_int_add atomic 1.


(** A schedule is the order in which the hardware serialises the calls of
    the participating threads, each thread named by a number.  Running a
    schedule of [atomic_int_dec_and_test] calls on one shared cell yields
    what each call returned, in that order, and the cell's final
    content. *)
Fixpoint run_dec_and_test (schedule : list nat) (cell : Z)
  : list (nat * bool) * Z :=
  match schedule with
  | [] => ([], cell)
  | t :: rest =>
      let '(b, cell') := atomic_int_dec_and_test cell in
      let '(results, final) := run_dec_and_test rest cell' in
      ((t, b) :: results, final)
  end.

(** The calls that observed the transition to zero. *)
Definition observers (results : list (nat * bool)) : list nat :=
  map fst (filter (fun tb => snd tb = true) results).

(** The same as an interleaving semantics: [N] threads each release one
    descriptor of the same region.  A configuration is the content of the
    counter and what the calls executed so far returned; in a step, any
    thread that has not called yet executes its
    [atomic_int_dec_and_test]. *)
Inductive release_step (N : nat)
  : Z * gmap nat bool -> Z * gmap nat bool -> Prop :=
| release_call t cell returned :
    (t < N)%nat ->
    returned !! t = None ->
    release_step N (cell, returned)
      ((atomic_int_dec_and_test cell).2,
       <[t := (atomic_int_dec_and_test cell).1]> returned).

(** [static inline void toggle_bit_at_pos(int *bitmap, int pos)]:
    [*bitmap = *bitmap ^ (1 << pos)], as the new content of [*bitmap].
    The shift is defined for [0 <= pos < 32]; gcc, which these sources
    need for their inline assembly, gives [1 << 31] the bit pattern of
    [INT_MIN]. *)
Definition toggle_bit_at_pos (bitmap pos : Z) : Z :=
  Z.lxor bitmap (sint (Z.shiftl 1 pos)).

(** What [bsf] leaves in its destination for a non-zero operand: the
    index of the least significant set bit.  [scan_up n src i] examines
    [n] bits from bit [i] upwards. *)
Fixpoint scan_up (n : nat) (src i : Z) : Z :=
  match n with
  | O => i
  | S n' => if Z.testbit src i then i else scan_up n' src (i + 1)
  end.

(** What [bsr] leaves in its destination for a non-zero operand: the
    index of the most significant set bit.  [scan_down n src i] examines
    [n] bits from bit [i] downwards. *)
Fixpoint scan_down (n : nat) (src i : Z) : Z :=
  match n with
  | O => i
  | S n' => if Z.testbit src i then i else scan_down n' src (i - 1)
  end.

(** [static inline int bsfl(int bitmap)]: [bsfl] sets ZF when the operand
    is zero; [jnz] then falls through to [movl $-1]. *)
Definition bsfl (bitmap : Z) : Z :=
  let src := uint bitmap in
  if src =? 0 then -1 else scan_up 32 src 0.

(** [static inline int bsrl(int bitmap)] *)
Definition bsrl (bitmap : Z) : Z :=
  let src := uint bitmap in
  if src =? 0 then -1 else scan_down 32 src 31.

(** [static inline unsigned long long rdtsc(void)]: the instruction puts
    the low half of the processor's time-stamp counter [tsc] into [lo]
    and the high half into [hi]; the function returns
    [(unsigned long long) lo | ((unsigned long long) hi << 32)]. *)
Definition rdtsc (tsc : Z) : Z :=
  let lo := uint tsc in
  let hi := uint (Z.shiftr tsc 32) in
  Z.lor (ullong lo) (ullong (Z.shiftl (ullong hi) 32)).

End Arch.

(** ** Data model ([regmalloc.h], [scm-desc.h]; as used by [regions.c]) *)

(** [region_page_t]: the header (next-page link, used-byte counter) and the
    payload. *)
Record region_page_t := mk_page {
  nextPage : Z;
  used_memory : Z;
  memory : list Z
}.

(** [region_t].  [dc] is the cell the atomic decrement works on through
    [(volatile int* )]; [number_of_region_pages] is an [unsigned] (it is
    printed with [%u]); [last_address_in_last_page] is an
    [unsigned long]; the others are pointers. *)
Record region_t := mk_region {
  dc : Z;
  number_of_region_pages : Z;
  next_free_address : Z;
  last_address_in_last_page : Z;
  firstPage : Z;
  lastPage : Z;
  age : Z
}.

(** The fields of [descriptor_root] the reclaimer reads and writes. *)
Record descriptor_root_t := mk_root {
  current_time : Z;
  region_page_pool : Z;
  number_of_pooled_region_pages : Z
}.

(** The memory the reclaimer works on: the region structures and the
    region pages that are currently allocated, each keyed by its address,
    the owner's [descriptor_root], and the sequence of addresses handed to
    [__real_free] so far. *)
Record state := mk_state {
  regions : gmap Z region_t;
  pages : gmap Z region_page_t;
  descriptor_root : descriptor_root_t;
  freed : list Z
}.

(** What a call does: it returns, it terminates the process with
    [exit(-1)], or it dereferences a pointer that is [NULL] or not
    allocated (undefined behaviour).  [OutOfFuel] is the loop model
    running out of steps, which [recycle_region] never does. *)
Inductive outcome (A : Type) : Type :=
| Done (a : A)
| Abort
| Fault
| OutOfFuel.
Arguments Done {A} a.
Arguments Abort {A}.
Arguments Fault {A}.
Arguments OutOfFuel {A}.

Definition bind {A B} (m : outcome A) (k : A -> outcome B) : outcome B :=
  match m with
  | Done a => k a
  | Abort => Abort
  | Fault => Fault
  | OutOfFuel => OutOfFuel
  end.

Notation "x <-- m ;; k" := (bind m (fun x => k))
  (at level 100, m at level 50, right associativity).

(** *** Field updates *)

Definition set_dc (v : Z) (rg : region_t) : region_t :=
  mk_region v (number_of_region_pages rg) (next_free_address rg)
    (last_address_in_last_page rg) (firstPage rg) (lastPage rg) (age rg).
Definition set_number_of_region_pages (v : Z) (rg : region_t) : region_t :=
  mk_region (dc rg) v (next_free_address rg)
    (last_address_in_last_page rg) (firstPage rg) (lastPage rg) (age rg).
Definition set_next_free_address (v : Z) (rg : region_t) : region_t :=
  mk_region (dc rg) (number_of_region_pages rg) v
    (last_address_in_last_page rg) (firstPage rg) (lastPage rg) (age rg).
Definition set_last_address_in_last_page (v : Z) (rg : region_t)
  : region_t :=
  mk_region (dc rg) (number_of_region_pages rg) (next_free_address rg)
    v (firstPage rg) (lastPage rg) (age rg).
Definition set_firstPage (v : Z) (rg : region_t) : region_t :=
  mk_region (dc rg) (number_of_region_pages rg) (next_free_address rg)
    (last_address_in_last_page rg) v (lastPage rg) (age rg).
Definition set_lastPage (v : Z) (rg : region_t) : region_t :=
  mk_region (dc rg) (number_of_region_pages rg) (next_free_address rg)
    (last_address_in_last_page rg) (firstPage rg) v (age rg).

Definition set_region_page_pool (v : Z) (d : descriptor_root_t)
  : descriptor_root_t :=
  mk_root (current_time d) v (number_of_pooled_region_pages d).
Definition set_number_of_pooled_region_pages (v : Z) (d : descriptor_root_t)
  : descriptor_root_t :=
  mk_root (current_time d) (region_page_pool d) v.

Definition set_nextPage (v : Z) (pg : region_page_t) : region_page_t :=
  mk_page v (used_memory pg) (memory pg).

Definition with_pages (h : gmap Z region_page_t) (s : state) : state :=
  mk_state (regions s) h (descriptor_root s) (freed s).
Definition with_root (d : descriptor_root_t) (s : state) : state :=
  mk_state (regions s) (pages s) d (freed s).

(** [*region = rg] *)
Definition store_region (r : Z) (rg : region_t) (s : state) : state :=
  mk_state (<[r := rg]> (regions s)) (pages s) (descriptor_root s) (freed s).

(** Reading through a region pointer. *)
Definition load_region (s : state) (r : Z) : outcome region_t :=
  if r =? 0 then Fault
  else match regions s !! r with
       | Some rg => Done rg
       | None => Fault
       end.

(** Reading through a page pointer. *)
Definition load_page (s : state) (p : Z) : outcome region_page_t :=
  if p =? 0 then Fault
  else match pages s !! p with
       | Some pg => Done pg
       | None => Fault
       end.

(** [p->nextPage = v] *)
Definition store_nextPage (p v : Z) (s : state) : outcome state :=
  pg <-- load_page s p ;;
  Done (with_pages (<[p := set_nextPage v pg]> (pages s)) s).

(** [__real_free(p)]: the page is given back to the underlying allocator
    and is no longer allocated. *)
Definition real_free (p : Z) (s : state) : state :=
  mk_state (regions s) (delete p (pages s)) (descriptor_root s)
    (freed s ++ [p]).

(** A page of zero bytes. *)
Definition zero_page (PAGE_PAYLOAD_SIZE : Z) : region_page_t :=
  mk_page 0 0 (repeat 0 (Z.to_nat PAGE_PAYLOAD_SIZE)).

(** ** The reclaimer ([regions.c]) *)

Section Reclaimer.

(** Build configuration: [true] when [SCM_CHECK_CONDITIONS] is defined
    (the checked build).  [SCM_DEBUG], [SCM_PRINTMEM] and
    [SCM_PRINTOVERHEAD] only print and meter and are left out. *)
Variable SCM_CHECK_CONDITIONS : bool.

(** Constants of [regmalloc.h]: the capacity of the free-page pool, the
    size of a page's payload, and the offset of the [memory] member in
    [region_page_t] (the size of the page header). *)
Variable SCM_REGION_PAGE_FREELIST_SIZE : Z.
Variable REGION_PAGE_PAYLOAD_SIZE : Z.
Variable memory_offset : Z.

(** [&p->memory] *)
Definition payload_address (p : Z) : Z := ulong (p + memory_offset).

(** [memset(p, 0, REGION_PAGE_SIZE)]: [REGION_PAGE_SIZE] covers the whole
    [region_page_t], header included. *)
Definition memset_page (p : Z) (s : state) : outcome state :=
  _ <-- load_page s p ;;
  Done (with_pages
          (<[p := zero_page REGION_PAGE_PAYLOAD_SIZE]> (pages s)) s).

(** A post-condition block: under [SCM_CHECK_CONDITIONS] a violation
    prints a diagnostic and calls [exit(-1)]. *)
Definition ensure (violated : bool) : outcome unit :=
  if SCM_CHECK_CONDITIONS && violated then Abort else Done tt.

(** The deallocation loop of the overflow branch (lines 232-243):
<<
    while (page2free != NULL && (number_of_pooled_region_pages
            + number_of_recycle_region_pages) > SCM_REGION_PAGE_FREELIST_SIZE) {
        region_page_t* next = page2free->nextPage;
        __real_free(page2free);
        page2free = next;
        number_of_recycle_region_pages--;
    }
>>
    It returns the memory, [page2free] and
    [number_of_recycle_region_pages] on exit. *)
Fixpoint free_loop (fuel : nat) (number_of_pooled_region_pages : Z)
    (s : state) (page2free number_of_recycle_region_pages : Z)
  : outcome (state * Z * Z) :=
  if negb (page2free =? 0)
     && (ulong SCM_REGION_PAGE_FREELIST_SIZE
         <? ulong (number_of_pooled_region_pages
                   + number_of_recycle_region_pages))
  then
    match fuel with
    | O => OutOfFuel
    | S fuel' =>
        pg <-- load_page s page2free ;;
        free_loop fuel' number_of_pooled_region_pages
          (real_free page2free s) (nextPage pg)
          (ulong (number_of_recycle_region_pages - 1))
    end
  else Done (s, page2free, number_of_recycle_region_pages).

(** Lines 189-267: the pool-capacity decision.  [rg] is the content of
    [*region]; the pages and [descriptor_root] are in [s].  In the
    overflow branch the count is stored twice, at lines 256-257 and at
    lines 265-266. *)
Definition pool_or_free (rg : region_t) (legacy_pages : Z)
    (number_of_recycle_region_pages : Z) (s : state) : outcome state :=
  let number_of_pooled_region_pages :=
    ulong (number_of_pooled_region_pages (descriptor_root s)) in
  if ulong (number_of_pooled_region_pages + number_of_recycle_region_pages)
     <=? ulong SCM_REGION_PAGE_FREELIST_SIZE
  then
    let first_in_pool := region_page_pool (descriptor_root s) in
    let last_page := lastPage rg in
    s <-- store_nextPage last_page first_in_pool s ;;
    let s := with_root (set_region_page_pool legacy_pages
                          (descriptor_root s)) s in
    Done (with_root
            (set_number_of_pooled_region_pages
               (ulong (number_of_pooled_region_pages
                       + number_of_recycle_region_pages))
               (descriptor_root s)) s)
  else
    exit <-- free_loop (S (size (pages s))) number_of_pooled_region_pages
               s legacy_pages number_of_recycle_region_pages ;;
    let '(s, page2free, number_of_recycle_region_pages) := exit in
    s <-- (if negb (page2free =? 0)
              && (ulong (number_of_pooled_region_pages
                         + number_of_recycle_region_pages)
                  <=? ulong SCM_REGION_PAGE_FREELIST_SIZE)
           then
             let first_in_pool := region_page_pool (descriptor_root s) in
             let last_page := lastPage rg in
             if negb (last_page =? 0) then
               s <-- store_nextPage last_page first_in_pool s ;;
               let s := with_root (set_region_page_pool page2free
                                     (descriptor_root s)) s in
               Done (with_root
                       (set_number_of_pooled_region_pages
                          (ulong (number_of_recycle_region_pages - 1))
                          (descriptor_root s)) s)
             else Done s
           else Done s) ;;
    Done (with_root
            (set_number_of_pooled_region_pages
               (ulong (number_of_pooled_region_pages
                       + number_of_recycle_region_pages))
               (descriptor_root s)) s).

(** Lines 269-321: the region is re-anchored on its first page, and
    emptied when it is a zombie. *)
Definition reanchor (rg : region_t) (s : state) : outcome region_t :=
  let rg := set_number_of_region_pages 1 rg in
  let rg := set_lastPage (firstPage rg) rg in
  let rg := set_last_address_in_last_page
              (ulong (payload_address (lastPage rg)
                      + REGION_PAGE_PAYLOAD_SIZE)) rg in
  let rg := set_next_free_address (payload_address (lastPage rg)) rg in
  _ <-- ensure (negb (number_of_region_pages rg =? 1)) ;;
  _ <-- ensure (negb (firstPage rg =? lastPage rg)) ;;
  if negb (age rg =? current_time (descriptor_root s)) then
    let rg := set_number_of_region_pages 0 rg in
    let rg := set_lastPage 0 (set_firstPage 0 rg) in
    _ <-- ensure (negb (number_of_region_pages rg =? 0)) ;;
    _ <-- ensure (negb (firstPage rg =? 0)) ;;
    Done rg
  else Done rg.

(** [static void recycle_region(region_t* region)].  The region
    structure is an object of its own, disjoint from every page, so its
    content is read once into [rg] and written back on return.  The
    [region != invar_region] checks compare a local with its own copy
    and are left out. *)
Definition recycle_region (region : Z) (s : state) : outcome state :=
  _ <-- ensure (region =? 0) ;;
  rg <-- load_region s region ;;
  _ <-- ensure ((firstPage rg =? 0) || (lastPage rg =? 0)) ;;
  _ <-- ensure (negb (dc rg =? 0)) ;;
  if age rg =? current_time (descriptor_root s) then
    let firstPage_ := firstPage rg in
    pg <-- load_page s firstPage_ ;;
    let legacy_pages := nextPage pg in
    s <-- memset_page firstPage_ s ;;
    let rg := set_last_address_in_last_page
                (ulong (payload_address firstPage_
                        + REGION_PAGE_PAYLOAD_SIZE - 1)) rg in
    if legacy_pages =? 0 then
      _ <-- ensure (negb (number_of_region_pages rg =? 1)) ;;
      _ <-- ensure (negb (firstPage rg =? lastPage rg)) ;;
      pg <-- (if SCM_CHECK_CONDITIONS then load_page s (firstPage rg)
              else Done pg) ;;
      _ <-- ensure (negb (nextPage pg =? 0)) ;;
      Done (store_region region (set_dc 0 rg) s)
    else
      _ <-- ensure (number_of_region_pages rg <=? 1) ;;
      let number_of_recycle_region_pages :=
        ulong (uint (number_of_region_pages rg - 1)) in
      s <-- pool_or_free rg legacy_pages number_of_recycle_region_pages s ;;
      rg <-- reanchor rg s ;;
      Done (store_region region rg s)
  else
    let legacy_pages := firstPage rg in
    if legacy_pages =? 0 then
      _ <-- ensure (negb (number_of_region_pages rg =? 0)) ;;
      _ <-- ensure (negb (firstPage rg =? lastPage rg)) ;;
      Done (store_region region (set_dc 0 rg) s)
    else
      _ <-- ensure (number_of_region_pages rg =? 0) ;;
      let number_of_recycle_region_pages :=
        ulong (number_of_region_pages rg) in
      s <-- pool_or_free rg legacy_pages number_of_recycle_region_pages s ;;
      rg <-- reanchor rg s ;;
      Done (store_region region rg s).

End Reclaimer.

Arguments ensure : simpl never.

(** ** The expiration driver ([regions.c]) *)

Section Driver.

Variable SCM_CHECK_CONDITIONS : bool.
Variable SCM_REGION_PAGE_FREELIST_SIZE : Z.
Variable REGION_PAGE_PAYLOAD_SIZE : Z.
Variable memory_offset : Z.

(** The expired-descriptor buffers belong to the descriptor subsystem
    ([scm-desc.h]), which is not part of these sources: [source] is
    their content and [get_expired_mem list] maps it to the pointer
    returned ([NULL] when nothing has expired) and the content left
    behind. *)
Variable source : Type.
Variable get_expired_mem : Z -> source -> Z * source.

(** [int expire_reg_descriptor_if_exists(expired_descriptor_page_list_t
    *list)]: the value returned, the descriptor buffers and the memory
    on return. *)
Definition expire_reg_descriptor_if_exists (list : Z) (src : source)
    (s : state) : outcome (Z * source * state) :=
  if SCM_CHECK_CONDITIONS && (list =? 0) then Done (0, src, s)
  else
    let '(expired_region, src) := get_expired_mem list src in
    if negb (expired_region =? 0) then
      rg <-- load_region s expired_region ;;
      let '(reached_zero, dc') := Arch.atomic_int_dec_and_test (dc rg) in
      let s := store_region expired_region (set_dc dc' rg) s in
      s <-- (if reached_zero then
               recycle_region SCM_CHECK_CONDITIONS
                 SCM_REGION_PAGE_FREELIST_SIZE REGION_PAGE_PAYLOAD_SIZE
                 memory_offset expired_region s
             else Done s) ;;
      Done (1, src, s)
    else Done (0, src, s).

End Driver.

(** ** Draining the expired descriptors *)

Section Draining.

Variable SCM_CHECK_CONDITIONS : bool.
Variable SCM_REGION_PAGE_FREELIST_SIZE : Z.
Variable REGION_PAGE_PAYLOAD_SIZE : Z.
Variable memory_offset : Z.
Variable source : Type.
Variable get_expired_mem : Z -> source -> Z * source.

(** [n] successive calls of [expire_reg_descriptor_if_exists] on the same
    list: the values they return, in order, and the descriptor buffers
    and the memory after the last. *)
Fixpoint expire_repeatedly (n : nat) (lst : Z) (src : source) (s : state)
  : outcome (list Z * source * state) :=
  match n with
  | O => Done ([], src, s)
  | S n' =>
      call <-- expire_reg_descriptor_if_exists SCM_CHECK_CONDITIONS
                 SCM_REGION_PAGE_FREELIST_SIZE REGION_PAGE_PAYLOAD_SIZE
                 memory_offset source get_expired_mem lst src s ;;
      let '(v, src, s) := call in
      calls <-- expire_repeatedly n' lst src s ;;
      let '(vs, src, s) := calls in
      Done (v :: vs, src, s)
  end.

(** What [n] successive calls of [get_expired_mem] yield, and the buffers
    they leave. *)
Fixpoint yields (n : nat) (lst : Z) (src : source) : list Z * source :=
  match n with
  | O => ([], src)
  | S n' =>
      let '(p, src) := get_expired_mem lst src in
      let '(ps, src) := yields n' lst src in
      (p :: ps, src)
  end.

End Draining.

(** ** Page chains *)

(** [lseg h p l q]: following [nextPage] from [p] visits exactly the
    allocated pages [l], in this order, and arrives at [q]. *)
Fixpoint lseg (h : gmap Z region_page_t) (p : Z) (l : list Z) (q : Z)
  : bool :=
  match l with
  | [] => p =? q
  | x :: l' =>
      (p =? x) && negb (x =? 0)
      && match h !! x with
         | Some pg => lseg h (nextPage pg) l' q
         | None => false
         end
  end.

(** The region's page chain is internally consistent and consists of the
    pages [l]: [firstPage] heads a [NULL]-terminated chain through [l],
    [lastPage] is its tail ([NULL] when the chain is empty), and
    [number_of_region_pages], an [unsigned], is its length. *)
Definition consistent (s : state) (rg : region_t) (l : list Z) : bool :=
  lseg (pages s) (firstPage rg) l 0
  && (lastPage rg =? default 0 (last l))
  && (number_of_region_pages rg =? Z.of_nat (length l))
  && (number_of_region_pages rg <? 2 ^ 32).

(** The precondition of [recycle_region]: [region] points to an
    initialised region [rg] whose page chain is consistent and consists of
    the pages [l], and no descriptor refers to it. *)
Definition reclaimable (s : state) (region : Z) (rg : region_t)
    (l : list Z) : Prop :=
  load_region s region = Done rg /\ dc rg = 0 /\ consistent s rg l.

(** Freshness (the region was used in the current epoch). *)
Definition fresh (s : state) (rg : region_t) : bool :=
  age rg =? current_time (descriptor_root s).

(** The pages a call recycles: all but the first for a fresh region, all
    of them for a zombie. *)
Definition recyclable (s : state) (rg : region_t) (l : list Z) : list Z :=
  if fresh s rg then tail l else l.

(** The pool bound holds, for a bound that leaves room for an [unsigned]
    page count in an [unsigned long]. *)
Definition pool_bounded (POOL_BOUND : Z) (s : state) : Prop :=
  0 <= number_of_pooled_region_pages (descriptor_root s) <= POOL_BOUND
  /\ POOL_BOUND + 2 ^ 32 <= 2 ^ 64.

(** How many of [n] recyclable pages do not fit into the pool. *)
Definition overflow (POOL_BOUND : Z) (s : state) (n : Z) : Z :=
  Z.max 0 (number_of_pooled_region_pages (descriptor_root s) + n
           - POOL_BOUND).

(** The bound of a page's usable payload:
    [base_address + PAGE_PAYLOAD_SIZE - 1]. *)
Definition usable_bound (PAGE_PAYLOAD_SIZE base_address : Z) : Z :=
  ulong (base_address + PAGE_PAYLOAD_SIZE - 1).

(** The memory after [__real_free] has been called on the pages [l], in
    this order. *)
Definition free_all (l : list Z) (s : state) : state :=
  foldl (fun s p => real_free p s) s l.

(** The free-page pool is well formed and consists of the pages [lp]:
    [region_page_pool] heads a [NULL]-terminated chain through [lp] and
    [number_of_pooled_region_pages] is its length. *)
Definition pool_consistent (s : state) (lp : list Z) : bool :=
  lseg (pages s) (region_page_pool (descriptor_root s)) lp 0
  && (number_of_pooled_region_pages (descriptor_root s)
      =? Z.of_nat (length lp)).

(** What a piece of the reclaimer may do to the memory: between [s] and
    [s'] the pages [released] were handed to [__real_free], in this
    order, and are no longer allocated; no page was allocated; only
    pages among [written] were written; the regions and the epoch are
    as before. *)
Definition page_effect (written released : list Z) (s s' : state) : Prop :=
  regions s' = regions s
  /\ current_time (descriptor_root s') = current_time (descriptor_root s)
  /\ freed s' = freed s ++ released
  /\ dom (pages s') = dom (pages s) ∖ list_to_set released
  /\ forall x, x ∉ written -> x ∉ released -> pages s' !! x = pages s !! x.

(** ** Example memories *)
Module Examples.

Definition page (next : Z) : region_page_t := mk_page next 7 [1; 2; 3].

(** [k] pages at [base + 4096 * i], [i = 1 .. k], each linked to the
    next and the last one to [next]. *)
Fixpoint chain_pages (base : Z) (k : nat) (next : Z)
    (h : gmap Z region_page_t) : gmap Z region_page_t :=
  match k with
  | O => h
  | S k' => chain_pages base k' (base + 4096 * Z.of_nat k)
              (<[base + 4096 * Z.of_nat k := page next]> h)
  end.

(** The addresses of these pages, in chain order. *)
Definition chain (base : Z) (k : nat) : list Z :=
  map (fun i => base + 4096 * Z.of_nat i) (seq 1 k).

(** A region at address [64] with [k >= 1] pages at [4096 * i]. *)
Definition region (k : nat) (age : Z) : region_t :=
  mk_region 0 (Z.of_nat k) 5000 8000 4096 (4096 * Z.of_nat k) age.

(** The region above, in epoch [now], next to a pool of [pooled] pages
    at [1048576 + 4096 * i]. *)
Definition memory (k : nat) (age now : Z) (pooled : nat) : state :=
  mk_state (<[64 := region k age]> ∅)
    (chain_pages 0 k 0 (chain_pages 1048576 pooled 0 ∅))
    (mk_root now (default 0 (head (chain 1048576 pooled)))
       (Z.of_nat pooled))
    [].

(** The same memory while [count] descriptors still refer to the
    region. *)
Definition referenced (count : Z) (k : nat) (age now : Z) (pooled : nat)
  : state :=
  store_region 64 (set_dc count (region k age)) (memory k age now pooled).

(** A region at address [64] that has no page, next to a pool of
    [pooled] pages. *)
Definition pristine (age now : Z) (pooled : nat) : state :=
  store_region 64 (mk_region 0 0 0 0 0 0 age) (memory 0 age now pooled).

(** Pages of 64 bytes: a header of 16 bytes and a payload of 48; a pool
    of at most 10 pages. *)
Definition recycle (check : bool) : Z -> state -> outcome state :=
  recycle_region check 10 48 16.

(** A descriptor source: a queue of region pointers, from which
    [get_expired_mem] takes the first. *)
Definition take_first (_ : Z) (src : list Z) : Z * list Z :=
  match src with
  | [] => (0, [])
  | region :: rest => (region, rest)
  end.

Definition expire (check : bool)
  : Z -> list Z -> state -> outcome (Z * list Z * state) :=
  expire_reg_descriptor_if_exists check 10 48 16 (list Z) take_first.

(** The memory a call returned, [s] if it did not return. *)
Definition returned (call : outcome state) (s : state) : state :=
  match call with
  | Done s' => s'
  | _ => s
  end.

(** The memory after [recycle_region] was called on the region at
    [64]. *)
Definition recycled (check : bool) (s : state) : state :=
  returned (recycle check 64 s) s.

End Examples.

(** ** Machine arithmetic *)

Lemma ulong_small z : 0 <= z < 2 ^ 64 -> ulong z = z.
Proof. intros H. unfold ulong. apply Z.mod_small. exact H. Qed.

Lemma uint_small z : 0 <= z < 2 ^ 32 -> uint z = z.
Proof. intros H. unfold uint. apply Z.mod_small. exact H. Qed.

Lemma sint_small z : - 2 ^ 31 <= z < 2 ^ 31 -> sint z = z.
Proof. intros H. unfold sint. rewrite Z.mod_small; lia. Qed.

Lemma Zeqb_True (a b : Z) : Is_true (a =? b) <-> a = b.
Proof. rewrite Is_true_true. apply Z.eqb_eq. Qed.

Lemma Zltb_True (a b : Z) : Is_true (a <? b) <-> a < b.
Proof. rewrite Is_true_true. apply Z.ltb_lt. Qed.

(** ** Page chains *)

Lemma lseg_nil h p q : lseg h p [] q <-> p = q.
Proof. simpl. apply Zeqb_True. Qed.

Lemma lseg_cons h p x l q :
  lseg h p (x :: l) q <->
  p = x /\ x <> 0 /\ exists pg, h !! x = Some pg /\ lseg h (nextPage pg) l q.
Proof.
  simpl. rewrite !andb_True, negb_True, Zeqb_True, Zeqb_True.
  destruct (h !! x) as [pg|]; split.
  - intros [[-> Hx] Hl]. eauto.
  - intros (-> & Hx & pg' & [= <-] & Hl). auto.
  - intros [_ []].
  - intros (_ & _ & pg' & [=] & _).
Qed.

Lemma lseg_app h p l1 l2 q :
  lseg h p (l1 ++ l2) q <-> exists m, lseg h p l1 m /\ lseg h m l2 q.
Proof.
  revert p. induction l1 as [|x l1 IH]; intros p.
  - simpl. split.
    + intros H. exists p. split; [by apply Zeqb_True | done].
    + intros (m & ->%Zeqb_True & H). done.
  - rewrite <- app_comm_cons, lseg_cons. split.
    + intros (-> & Hx & pg & Hpg & (m & H1 & H2)%IH).
      exists m. split; [|done]. apply lseg_cons. eauto.
    + intros (m & (-> & Hx & pg & Hpg & H1)%lseg_cons & H2).
      repeat split; [done|]. exists pg. split; [done|]. apply IH. eauto.
Qed.

(** A chain that ends in [NULL] is determined by its head. *)
Lemma lseg_null_functional h p l1 l2 :
  lseg h p l1 0 -> lseg h p l2 0 -> l1 = l2.
Proof.
  revert p l2. induction l1 as [|x l1 IH]; intros p [|y l2].
  - done.
  - intros Hn%lseg_nil (-> & Hy & _)%lseg_cons. done.
  - intros (-> & Hx & _)%lseg_cons Hn%lseg_nil. done.
  - intros (-> & Hx & pg & Hpg & H1)%lseg_cons
           (-> & _ & pg' & Hpg' & H2)%lseg_cons.
    f_equal. rewrite Hpg in Hpg'. injection Hpg' as <-. eauto.
Qed.

(** It visits no page twice. *)
Lemma lseg_null_NoDup h p l : lseg h p l 0 -> NoDup l.
Proof.
  revert p. induction l as [|x l IH]; intros p; [constructor|].
  intros (-> & Hx & pg & Hpg & Hl)%lseg_cons.
  constructor; [|by eapply IH].
  intros (l1 & l2 & ->)%list_elem_of_split.
  pose proof Hl as (m & _ & (_ & _ & pg' & Hpg' & H2)%lseg_cons)%lseg_app.
  rewrite Hpg in Hpg'. injection Hpg' as <-.
  pose proof (lseg_null_functional _ _ _ _ Hl H2) as Heq.
  apply (f_equal length) in Heq. rewrite length_app in Heq. simpl in Heq. lia.
Qed.

(** A chain only depends on the pages it visits. *)
Lemma lseg_frame h h' p l q :
  (forall x, x ∈ l -> h' !! x = h !! x) -> lseg h p l q -> lseg h' p l q.
Proof.
  revert p. induction l as [|x l IH]; intros p Hag; [done|].
  intros (-> & Hx & pg & Hpg & Hl)%lseg_cons. apply lseg_cons.
  repeat split; [done|]. exists pg. split.
  - rewrite Hag; [done | left].
  - apply IH; [|done]. intros y Hy. apply Hag. by right.
Qed.

Lemma lseg_nonnull h p l q x : lseg h p l q -> x ∈ l -> x <> 0.
Proof.
  revert p. induction l as [|y l IH]; intros p.
  - intros _ Hx. inversion Hx.
  - intros (-> & Hy & pg & Hpg & Hl)%lseg_cons [->|Hx]%elem_of_cons; eauto.
Qed.

Lemma lseg_allocated h p l q x : lseg h p l q -> x ∈ l -> is_Some (h !! x).
Proof.
  revert p. induction l as [|y l IH]; intros p.
  - intros _ Hx. inversion Hx.
  - intros (-> & Hy & pg & Hpg & Hl)%lseg_cons [->|Hx]%elem_of_cons; eauto.
Qed.

(** Every page of a chain is allocated, so the chain is no longer than
    the number of allocated pages. *)
Lemma lseg_null_length h p l : lseg h p l 0 -> (length l <= size h)%nat.
Proof.
  revert h p. induction l as [|x l IH]; intros h p; [simpl; lia|].
  intros Hc. pose proof (lseg_null_NoDup _ _ _ Hc) as Hnd.
  apply lseg_cons in Hc as (-> & Hx & pg & Hpg & Hl).
  apply NoDup_cons in Hnd as [Hnotin _].
  assert (lseg (delete x h) (nextPage pg) l 0) as Hl'.
  { eapply lseg_frame; [|exact Hl]. intros y Hy.
    apply lookup_delete_ne. intros ->. done. }
  apply IH in Hl'. rewrite map_size_delete_Some in Hl' by eauto.
  pose proof (map_size_ne_0_lookup_2 h x (ltac:(eauto))). simpl. lia.
Qed.

(** ** Freeing pages *)

Lemma free_all_regions l s : regions (free_all l s) = regions s.
Proof.
  revert s. induction l as [|x l IH]; intros s; [done|].
  simpl. by rewrite IH.
Qed.

Lemma free_all_root l s : descriptor_root (free_all l s) = descriptor_root s.
Proof.
  revert s. induction l as [|x l IH]; intros s; [done|].
  simpl. by rewrite IH.
Qed.

Lemma free_all_freed l s : freed (free_all l s) = freed s ++ l.
Proof.
  revert s. induction l as [|x l IH]; intros s.
  - simpl. by rewrite app_nil_r.
  - simpl. rewrite IH. simpl. by rewrite <- app_assoc.
Qed.

Lemma free_all_pages_other l s x :
  x ∉ l -> pages (free_all l s) !! x = pages s !! x.
Proof.
  revert s. induction l as [|y l IH]; intros s Hx; [done|].
  apply not_elem_of_cons in Hx as [Hxy Hx].
  simpl. rewrite IH by done. simpl. by apply lookup_delete_ne.
Qed.

Lemma free_all_pages_freed l s x : x ∈ l -> pages (free_all l s) !! x = None.
Proof.
  revert s. induction l as [|y l IH]; intros s Hx; [inversion Hx|].
  simpl. destruct (decide (x ∈ l)) as [Hin|Hnotin]; [by apply IH|].
  apply elem_of_cons in Hx as [->|Hx]; [|done].
  rewrite free_all_pages_other by done. simpl. apply lookup_delete_eq.
Qed.

Section LoopFacts.

Variable POOL_BOUND : Z.

(** The deallocation loop frees the first [overflow] pages of the chain
    it is started on, one after the other from the head, and stops on
    the first page that fits. *)
Lemma free_loop_spec fuel pooled s p l n :
  lseg (pages s) p l 0 ->
  n = Z.of_nat (length l) -> n < 2 ^ 32 ->
  0 <= pooled <= POOL_BOUND -> POOL_BOUND + 2 ^ 32 <= 2 ^ 64 ->
  (length l < fuel)%nat ->
  let f := Z.to_nat (Z.max 0 (pooled + n - POOL_BOUND)) in
  free_loop POOL_BOUND fuel pooled s p n
  = Done (free_all (take f l) s, default 0 (head (drop f l)),
          n - Z.of_nat f).
Proof.
  intros Hc Hn Hn32 Hpooled Hbound. revert fuel s p n Hc Hn Hn32.
  induction l as [|x l IH]; intros fuel s p n Hc Hn Hn32 Hfuel f.
  - apply lseg_nil in Hc as ->. simpl in Hn. subst n.
    assert (f = 0%nat) as -> by (unfold f; lia).
    destruct fuel; simpl; do 3 f_equal; lia.
  - pose proof (lseg_null_NoDup _ _ _ Hc) as [Hnotin _]%NoDup_cons.
    apply lseg_cons in Hc as (-> & Hx & pg & Hpg & Hl).
    rewrite length_cons in Hn.
    destruct fuel as [|fuel]; [simpl in Hfuel; lia|].
    simpl in Hfuel. simpl free_loop.
    rewrite (ulong_small POOL_BOUND), (ulong_small (pooled + n)) by lia.
    destruct (x =? 0) eqn:Hx0; [apply Z.eqb_eq in Hx0; done|]. simpl negb.
    destruct (POOL_BOUND <? pooled + n) eqn:Hcmp; simpl andb.
    + apply Z.ltb_lt in Hcmp.
      unfold load_page. rewrite Hx0, Hpg. simpl bind.
      rewrite (ulong_small (n - 1)) by lia.
      rewrite IH; try lia.
      * assert (f = S (Z.to_nat (Z.max 0 (pooled + (n - 1) - POOL_BOUND))))
          as -> by (unfold f; lia).
        unfold free_all. cbn [take drop foldl]. do 2 f_equal. lia.
      * eapply lseg_frame; [|exact Hl]. intros y Hy. simpl.
        apply lookup_delete_ne. intros ->. done.
    + apply Z.ltb_ge in Hcmp.
      assert (f = 0%nat) as -> by (unfold f; lia).
      simpl. do 3 f_equal. lia.
Qed.

(** Every iteration frees an allocated page, so the loop needs no more
    steps than there are pages. *)
Lemma free_loop_fuel fuel pooled s p n :
  (size (pages s) < fuel)%nat ->
  free_loop POOL_BOUND fuel pooled s p n <> OutOfFuel.
Proof.
  revert s p n. induction fuel as [|fuel IH]; intros s p n Hfuel; [lia|].
  simpl. destruct (negb (p =? 0) && _); [|done].
  unfold load_page. destruct (p =? 0); [done|].
  destruct (pages s !! p) as [pg|] eqn:Hpg; [|done].
  simpl. apply IH. simpl. rewrite map_size_delete_Some by eauto.
  pose proof (map_size_ne_0_lookup_2 (pages s) p (ltac:(eauto))). lia.
Qed.

End LoopFacts.

(** ** Splicing a chain onto the pool *)

Ltac simpl_state :=
  unfold with_root, with_pages, store_region, set_region_page_pool,
    set_number_of_pooled_region_pages;
  cbn [regions pages descriptor_root freed current_time region_page_pool
       number_of_pooled_region_pages].

(** Redirecting the link of a chain's tail page makes the chain a segment
    that ends where the link now points. *)
Lemma lseg_set_last h p l z pg q :
  lseg h p l 0 -> last l = Some z -> h !! z = Some pg ->
  lseg (<[z := set_nextPage q pg]> h) p l q.
Proof.
  intros Hc [l0 ->]%last_Some Hz.
  pose proof (lseg_null_NoDup _ _ _ Hc) as (_ & Hdisj & _)%NoDup_app.
  apply lseg_app in Hc as (m & H0 & (-> & Hz0 & _)%lseg_cons).
  apply lseg_app. exists z. split.
  - eapply lseg_frame; [|exact H0]. intros y Hy.
    apply lookup_insert_ne. intros ->. apply (Hdisj _ Hy). by left.
  - apply lseg_cons. repeat split; [done|].
    eexists. split; [apply lookup_insert_eq|]. simpl. by apply Zeqb_True.
Qed.

Lemma load_page_allocated s p l q x pg :
  lseg (pages s) p l q -> x ∈ l -> pages s !! x = Some pg ->
  load_page s x = Done pg.
Proof.
  intros Hc Hx Hpg. unfold load_page.
  pose proof (lseg_nonnull _ _ _ _ _ Hc Hx) as Hx0.
  apply Z.eqb_neq in Hx0. by rewrite Hx0, Hpg.
Qed.

Section PoolFacts.

Variable POOL_BOUND : Z.

(** The pool-capacity decision on a consistent chain [l] of [n >= 1]
    recyclable pages: the first [overflow] pages are freed in chain
    order, the others are spliced in front of the pool, the count
    becomes [min POOL_BOUND (pooled + n)], and pages outside the chain
    are not touched. *)
Lemma pool_or_free_spec rg legacy l n s :
  lseg (pages s) legacy l 0 -> l <> [] ->
  lastPage rg = default 0 (last l) ->
  n = Z.of_nat (length l) -> n < 2 ^ 32 ->
  pool_bounded POOL_BOUND s ->
  exists s',
    pool_or_free POOL_BOUND rg legacy n s = Done s'
    /\ regions s' = regions s
    /\ freed s' = freed s ++ take (Z.to_nat (overflow POOL_BOUND s n)) l
    /\ current_time (descriptor_root s') = current_time (descriptor_root s)
    /\ number_of_pooled_region_pages (descriptor_root s')
       = Z.min POOL_BOUND
           (number_of_pooled_region_pages (descriptor_root s) + n)
    /\ lseg (pages s') (region_page_pool (descriptor_root s'))
         (drop (Z.to_nat (overflow POOL_BOUND s n)) l)
         (region_page_pool (descriptor_root s))
    /\ (forall x, x ∉ l -> pages s' !! x = pages s !! x).
Proof.
  intros Hc Hne Hlast Hn Hn32 [Hpooled Hbound].
  set (pooled := number_of_pooled_region_pages (descriptor_root s)) in *.
  assert (1 <= n) as Hn1 by (destruct l; [done | simpl in Hn; lia]).
  destruct (last l) as [z|] eqn:Hz; [|by apply last_None in Hz].
  simpl in Hlast.
  assert (z ∈ l) as Hzl by (by apply last_Some_elem_of).
  destruct (lseg_allocated _ _ _ _ _ Hc Hzl) as [pgz Hpgz].
  unfold pool_or_free. fold pooled.
  rewrite (ulong_small pooled), (ulong_small POOL_BOUND) by lia.
  destruct (ulong (pooled + n) <=? POOL_BOUND) eqn:Hfit;
    rewrite ulong_small in Hfit by lia.
  - (* the chain fits *)
    apply Z.leb_le in Hfit.
    assert (overflow POOL_BOUND s n = 0) as ->
      by (unfold overflow; fold pooled; lia).
    unfold store_nextPage. rewrite Hlast.
    rewrite (load_page_allocated _ _ _ _ _ _ Hc Hzl Hpgz). simpl bind.
    eexists. split; [reflexivity|]. simpl.
    rewrite app_nil_r, (ulong_small (pooled + n)) by lia.
    repeat split; [lia | by apply lseg_set_last |].
    intros x Hx. apply lookup_insert_ne. intros ->. done.
  - (* overflow *)
    apply Z.leb_gt in Hfit.
    pose proof (lseg_null_length _ _ _ Hc) as Hlen.
    rewrite (free_loop_spec POOL_BOUND _ pooled s legacy l n)
      by (done || lia).
    unfold overflow. fold pooled.
    set (f := Z.to_nat (Z.max 0 (pooled + n - POOL_BOUND))).
    assert (n - Z.of_nat f = POOL_BOUND - pooled) as Hrest
      by (unfold f; lia).
    simpl bind. rewrite Hrest.
    replace (pooled + (POOL_BOUND - pooled)) with POOL_BOUND by lia.
    rewrite (ulong_small POOL_BOUND), Z.leb_refl, andb_true_r by lia.
    pose proof (lseg_null_NoDup _ _ _ Hc) as Hnd.
    rewrite <- (take_drop f l) in Hc, Hnd, Hz.
    apply NoDup_app in Hnd as (_ & Hdisj & _).
    apply lseg_app in Hc as (m & H1 & H2).
    destruct (drop f l) as [|y k] eqn:Hdrop.
    + (* every page was freed *)
      simpl. eexists. split; [reflexivity|]. simpl.
      rewrite free_all_regions, free_all_freed, free_all_root.
      repeat split; [fold pooled; lia | by apply Zeqb_True |].
      intros x Hx. apply free_all_pages_other.
      intros Hin. apply Hx. by apply (subseteq_take f l).
    + (* the pages left are pooled *)
      pose proof H2 as (-> & Hy0 & _)%lseg_cons.
      simpl default. apply Z.eqb_neq in Hy0 as Hy0'. rewrite Hy0'.
      simpl negb. cbv iota.
      rewrite last_app in Hz.
      destruct (last (y :: k)) as [z'|] eqn:Hlk; [|by apply last_None in Hlk].
      injection Hz as ->.
      assert (z ∈ y :: k) as Hzk by (by apply last_Some_elem_of).
      assert (z <> 0) as Hz0 by (eapply lseg_nonnull; eauto).
      apply Z.eqb_neq in Hz0 as Hz0'. rewrite Hlast, Hz0'. simpl negb.
      cbv iota.
      assert (forall x, x ∈ y :: k ->
                pages (free_all (take f l) s) !! x = pages s !! x) as Hkeep.
      { intros x Hx. apply free_all_pages_other.
        intros Hin. by apply (Hdisj _ Hin). }
      unfold store_nextPage, load_page.
      rewrite Hz0', (Hkeep _ Hzk), Hpgz. simpl bind.
      eexists. split; [reflexivity|]. simpl_state.
      rewrite free_all_regions, free_all_freed, free_all_root.
      repeat split; [fold pooled; lia | |].
      * apply lseg_set_last.
        -- eapply lseg_frame; [|exact H2]. exact Hkeep.
        -- exact Hlk.
        -- by rewrite (Hkeep _ Hzk).
      * intros x Hx. rewrite lookup_insert_ne by (intros ->; done).
        apply free_all_pages_other.
        intros Hin. apply Hx. by apply (subseteq_take f l).
Qed.

End PoolFacts.

(** ** Reclaiming a region *)

Lemma consistent_inv s rg l :
  consistent s rg l ->
  lseg (pages s) (firstPage rg) l 0
  /\ lastPage rg = default 0 (last l)
  /\ number_of_region_pages rg = Z.of_nat (length l)
  /\ number_of_region_pages rg < 2 ^ 32.
Proof.
  unfold consistent. rewrite !andb_True, !Zeqb_True, Zltb_True. tauto.
Qed.

Lemma consistent_single s rg fp pg :
  fp <> 0 -> pages s !! fp = Some pg -> nextPage pg = 0 ->
  firstPage rg = fp -> lastPage rg = fp -> number_of_region_pages rg = 1 ->
  consistent s rg [fp].
Proof.
  intros Hfp0 Hpg Hnext Hfirst Hlast Hnum. unfold consistent.
  rewrite !andb_True, !Zeqb_True, Zltb_True, lseg_cons.
  rewrite Hfirst, Hlast, Hnum. simpl. repeat split; try done.
  exists pg. split; [done|]. by apply Zeqb_True.
Qed.

Lemma load_region_inv s r rg :
  load_region s r = Done rg -> r <> 0 /\ regions s !! r = Some rg.
Proof.
  unfold load_region. destruct (r =? 0) eqn:Hr; [done|].
  apply Z.eqb_neq in Hr. destruct (regions s !! r); [|done].
  by intros [= ->].
Qed.

Lemma ensure_false check : ensure check false = Done tt.
Proof. unfold ensure. by rewrite andb_false_r. Qed.

Lemma ensure_unchecked violated : ensure false violated = Done tt.
Proof. done. Qed.

Section ReclaimerFacts.

Variable SCM_CHECK_CONDITIONS : bool.
Variable POOL_BOUND : Z.
Variable PAGE_PAYLOAD_SIZE : Z.
Variable memory_offset : Z.

Local Abbreviation recycle :=
  (recycle_region SCM_CHECK_CONDITIONS POOL_BOUND PAGE_PAYLOAD_SIZE
     memory_offset).
Local Abbreviation payload := (payload_address memory_offset).

(** Lines 269-321 as one assignment to [*region]. *)
Lemma reanchor_spec rg s :
  reanchor SCM_CHECK_CONDITIONS PAGE_PAYLOAD_SIZE memory_offset rg s
  = Done (mk_region (dc rg)
            (if fresh s rg then 1 else 0)
            (payload (firstPage rg))
            (ulong (payload (firstPage rg) + PAGE_PAYLOAD_SIZE))
            (if fresh s rg then firstPage rg else 0)
            (if fresh s rg then firstPage rg else 0)
            (age rg)).
Proof.
  unfold reanchor, fresh. simpl. rewrite Z.eqb_refl. simpl.
  rewrite !ensure_false. simpl.
  by destruct (age rg =? current_time (descriptor_root s)).
Qed.

(** What [recycle_region] does to a region with a consistent chain [l]
    that has pages to recycle. *)
Lemma recycle_region_spec region s rg l :
  load_region s region = Done rg -> dc rg = 0 ->
  consistent s rg l -> recyclable s rg l <> [] ->
  pool_bounded POOL_BOUND s ->
  let n := Z.of_nat (length (recyclable s rg l)) in
  let f := Z.to_nat (overflow POOL_BOUND s n) in
  exists s',
    recycle region s = Done s'
    /\ regions s'
       = <[region :=
             mk_region 0
               (if fresh s rg then 1 else 0)
               (payload (firstPage rg))
               (ulong (payload (firstPage rg) + PAGE_PAYLOAD_SIZE))
               (if fresh s rg then firstPage rg else 0)
               (if fresh s rg then firstPage rg else 0)
               (age rg)]> (regions s)
    /\ freed s' = freed s ++ take f (recyclable s rg l)
    /\ current_time (descriptor_root s') = current_time (descriptor_root s)
    /\ number_of_pooled_region_pages (descriptor_root s')
       = Z.min POOL_BOUND
           (number_of_pooled_region_pages (descriptor_root s) + n)
    /\ lseg (pages s') (region_page_pool (descriptor_root s'))
         (drop f (recyclable s rg l))
         (region_page_pool (descriptor_root s))
    /\ (forall x, x ∉ recyclable s rg l ->
          pages s' !! x
          = (if fresh s rg
             then <[firstPage rg := zero_page PAGE_PAYLOAD_SIZE]> (pages s)
             else pages s) !! x).
Proof.
  intros Hload Hdc (Hc & Hlast & Hnum & Hnum32)%consistent_inv Hrec Hpool.
  cbv zeta.
  pose proof Hload as [Hr0 _]%load_region_inv. apply Z.eqb_neq in Hr0.
  unfold recyclable in *.
  unfold recycle_region.
  rewrite Hr0, ensure_false, Hload. simpl bind.
  destruct l as [|fp l]; [by destruct (fresh s rg)|].
  pose proof (lseg_null_NoDup _ _ _ Hc) as [Hfpl _]%NoDup_cons.
  apply lseg_cons in Hc as (Hfp & Hfp0 & pg & Hpg & Hl).
  assert (lastPage rg <> 0) as Hlast0.
  { rewrite Hlast. destruct (last (fp :: l)) as [z|] eqn:Hz;
      [|by apply last_None in Hz].
    apply last_Some_elem_of in Hz. simpl.
    eapply (lseg_nonnull (pages s) (firstPage rg) (fp :: l) 0).
    - apply lseg_cons. eauto.
    - done. }
  rewrite length_cons in Hnum.
  apply Z.eqb_neq in Hfp0 as Hfp0', Hlast0 as Hlast0'.
  rewrite Hfp, Hfp0', Hlast0', Hdc. simpl orb. simpl negb.
  rewrite !ensure_false. simpl bind.
  unfold fresh in *.
  destruct (age rg =? current_time (descriptor_root s)) eqn:Hage.
  - (* fresh: the first page stays *)
    simpl in Hrec.
    unfold load_page, memset_page, load_page.
    rewrite Hfp0', Hpg. simpl bind.
    destruct l as [|y l']; [done|].
    pose proof Hl as (Hy & Hy0 & _)%lseg_cons.
    apply Z.eqb_neq in Hy0 as Hy0'. rewrite Hy, Hy0'. rewrite Hy in Hl.
    cbn [number_of_region_pages set_last_address_in_last_page].
    rewrite length_cons in Hnum.
    assert ((number_of_region_pages rg <=? 1) = false) as ->
      by (apply Z.leb_gt; lia).
    rewrite ensure_false. simpl bind.
    rewrite (uint_small (number_of_region_pages rg - 1)) by lia.
    rewrite (ulong_small (number_of_region_pages rg - 1)) by lia.
    set (s1 := with_pages _ s).
    set (rg1 := set_last_address_in_last_page _ rg).
    destruct (pool_or_free_spec POOL_BOUND rg1 y (y :: l')
                (number_of_region_pages rg - 1) s1)
      as (s2 & -> & Hregions & Hfreed & Htime & Hcount & Hseg & Hframe).
    + eapply lseg_frame; [|exact Hl].
      intros x Hx. simpl. apply lookup_insert_ne. intros ->. done.
    + done.
    + simpl. rewrite Hlast. by rewrite last_cons_cons.
    + rewrite length_cons. lia.
    + lia.
    + exact Hpool.
    + simpl bind. rewrite reanchor_spec. simpl bind.
      unfold fresh. rewrite Htime. simpl in Hage |- *. rewrite Hage.
      eexists. split; [reflexivity|]. simpl_state. cbn [tail].
      assert (number_of_region_pages rg - 1 = Z.of_nat (length (y :: l')))
        as Hn by (rewrite length_cons; lia).
      rewrite Hn in Hfreed, Hcount, Hseg.
      rewrite Hregions, Hdc, Hfp.
      repeat split;
        [exact Hfreed | exact Htime | exact Hcount | exact Hseg
        | exact Hframe].
  - (* zombie: every page goes *)
    set (n := ulong (number_of_region_pages rg)).
    assert ((number_of_region_pages rg =? 0) = false) as ->
      by (apply Z.eqb_neq; lia).
    rewrite ensure_false. simpl bind.
    assert (n = number_of_region_pages rg) as ->
      by (apply ulong_small; lia).
    destruct (pool_or_free_spec POOL_BOUND rg fp (fp :: l)
                (number_of_region_pages rg) s)
      as (s2 & -> & Hregions & Hfreed & Htime & Hcount & Hseg & Hframe).
    + apply lseg_cons. eauto.
    + done.
    + done.
    + rewrite length_cons. lia.
    + lia.
    + exact Hpool.
    + simpl bind. rewrite reanchor_spec. simpl bind.
      unfold fresh. rewrite Htime, Hage.
      eexists. split; [reflexivity|]. simpl_state.
      assert (number_of_region_pages rg = Z.of_nat (length (fp :: l)))
        as Hn by (rewrite length_cons; lia).
      rewrite Hn in Hfreed, Hcount, Hseg.
      rewrite Hregions, Hdc, Hfp.
      repeat split;
        [exact Hfreed | exact Htime | exact Hcount | exact Hseg
        | exact Hframe].
Qed.

End ReclaimerFacts.

(** ** Regions with nothing to recycle *)

Section EarlyReturns.

Variable SCM_CHECK_CONDITIONS : bool.
Variable POOL_BOUND : Z.
Variable PAGE_PAYLOAD_SIZE : Z.
Variable memory_offset : Z.

Local Abbreviation recycle :=
  (recycle_region SCM_CHECK_CONDITIONS POOL_BOUND PAGE_PAYLOAD_SIZE
     memory_offset).
Local Abbreviation payload := (payload_address memory_offset).

(** A fresh region with one page: the page is zeroed, the bound of the
    cursor is reset and [dc] is stored; nothing else is written. *)
Lemma recycle_fresh_single region s rg fp :
  load_region s region = Done rg -> dc rg = 0 ->
  consistent s rg [fp] -> fresh s rg = true ->
  recycle region s
  = Done (store_region region
            (set_dc 0
               (set_last_address_in_last_page
                  (usable_bound PAGE_PAYLOAD_SIZE (payload fp)) rg))
            (with_pages (<[fp := zero_page PAGE_PAYLOAD_SIZE]> (pages s))
               s)).
Proof.
  intros Hload Hdc (Hc & Hlast & Hnum & _)%consistent_inv Hage.
  pose proof Hload as [Hr0 _]%load_region_inv. apply Z.eqb_neq in Hr0.
  apply lseg_cons in Hc as (Hfp & Hfp0 & pg & Hpg & Hnext%lseg_nil).
  simpl in Hlast, Hnum. apply Z.eqb_neq in Hfp0 as Hfp0'.
  unfold fresh in Hage. unfold recycle_region.
  rewrite Hr0, ensure_false, Hload. simpl bind.
  rewrite Hfp, Hlast, Hfp0', Hdc. simpl orb. simpl negb.
  rewrite !ensure_false. simpl bind. rewrite Hage.
  unfold load_page at 1. rewrite Hfp0', Hpg. simpl bind.
  unfold memset_page, load_page at 1. rewrite Hfp0', Hpg. simpl bind.
  rewrite Hnext. simpl Z.eqb. cbv iota.
  cbn [number_of_region_pages firstPage lastPage
       set_last_address_in_last_page].
  rewrite Hnum, !Z.eqb_refl. simpl negb.
  rewrite !ensure_false. simpl bind.
  destruct SCM_CHECK_CONDITIONS.
  - unfold load_page. rewrite Hfp0'. simpl pages.
    rewrite lookup_insert_eq. simpl. done.
  - simpl bind. by rewrite ?ensure_unchecked.
Qed.

(** A region without any page: the checked build exits, the production
    build faults on a fresh region and returns at once on a zombie.  In
    no case is the pool written. *)
Lemma recycle_no_page region s rg s' :
  load_region s region = Done rg -> consistent s rg [] ->
  recycle region s = Done s' ->
  descriptor_root s' = descriptor_root s.
Proof.
  intros Hload (Hfp%lseg_nil & Hlast & Hnum & _)%consistent_inv.
  pose proof Hload as [Hr0 _]%load_region_inv. apply Z.eqb_neq in Hr0.
  simpl in Hlast, Hnum. unfold recycle_region.
  rewrite Hr0, ensure_false, Hload. simpl bind.
  rewrite Hfp, Hlast. simpl orb.
  destruct SCM_CHECK_CONDITIONS; [done|].
  rewrite !ensure_unchecked. simpl bind.
  destruct (age rg =? current_time (descriptor_root s)); [done|].
  simpl. by intros [= <-].
Qed.

(** On a region that meets the precondition and has a page, the call
    returns. *)
Lemma recycle_region_returns region s rg l :
  load_region s region = Done rg -> dc rg = 0 ->
  consistent s rg l -> l <> [] ->
  pool_bounded POOL_BOUND s ->
  exists s', recycle region s = Done s'.
Proof.
  intros Hload Hdc Hc Hne Hpool.
  destruct (decide (recyclable s rg l = [])) as [Hrec|Hrec].
  - unfold recyclable in Hrec.
    destruct (fresh s rg) eqn:Hage; [|done].
    destruct l as [|fp [|y l]]; try done.
    eexists. by apply recycle_fresh_single.
  - destruct (recycle_region_spec SCM_CHECK_CONDITIONS POOL_BOUND
                PAGE_PAYLOAD_SIZE memory_offset region s rg l
                Hload Hdc Hc Hrec Hpool) as (s' & Hrun & _).
    eauto.
Qed.

Lemma bind_fuel {A B} (m : outcome A) (k : A -> outcome B) :
  m <> OutOfFuel -> (forall a, k a <> OutOfFuel) -> bind m k <> OutOfFuel.
Proof. intros Hm Hk. destruct m; simpl; auto. Qed.

Lemma ensure_fuel violated : ensure SCM_CHECK_CONDITIONS violated <> OutOfFuel.
Proof. unfold ensure. by destruct (_ && _). Qed.

Lemma load_page_fuel s p : load_page s p <> OutOfFuel.
Proof. unfold load_page. by destruct (p =? 0), (pages s !! p). Qed.

Lemma load_region_fuel s r : load_region s r <> OutOfFuel.
Proof. unfold load_region. by destruct (r =? 0), (regions s !! r). Qed.

Lemma store_nextPage_fuel p v s : store_nextPage p v s <> OutOfFuel.
Proof.
  unfold store_nextPage. apply bind_fuel; [apply load_page_fuel | done].
Qed.

Lemma pool_or_free_fuel rg legacy n s :
  pool_or_free POOL_BOUND rg legacy n s <> OutOfFuel.
Proof.
  unfold pool_or_free. destruct (_ <=? _).
  - apply bind_fuel; [apply store_nextPage_fuel | done].
  - apply bind_fuel; [apply free_loop_fuel; lia |].
    intros [[s1 page2free] n1]. apply bind_fuel; [|done].
    destruct (_ && _); [|done]. destruct (negb _); [|done].
    apply bind_fuel; [apply store_nextPage_fuel | done].
Qed.

(** The step budget of the loop model is never exhausted: every call
    returns, exits or faults. *)
Lemma recycle_region_fuel region s : recycle region s <> OutOfFuel.
Proof.
  assert (forall rg legacy n s1,
            (s2 <-- pool_or_free POOL_BOUND rg legacy n s1 ;;
             rg' <-- reanchor SCM_CHECK_CONDITIONS PAGE_PAYLOAD_SIZE
                       memory_offset rg s2 ;;
             Done (store_region region rg' s2)) <> OutOfFuel) as Htail.
  { intros rg legacy n s1. apply bind_fuel; [apply pool_or_free_fuel|].
    intros s2. by rewrite reanchor_spec. }
  unfold recycle_region.
  apply bind_fuel; [apply ensure_fuel | intros _].
  apply bind_fuel; [apply load_region_fuel | intros rg].
  apply bind_fuel; [apply ensure_fuel | intros _].
  apply bind_fuel; [apply ensure_fuel | intros _].
  destruct (age rg =? _).
  - apply bind_fuel; [apply load_page_fuel | intros pg].
    apply bind_fuel.
    { unfold memset_page. apply bind_fuel; [apply load_page_fuel | done]. }
    intros s1. destruct (nextPage pg =? 0).
    + apply bind_fuel; [apply ensure_fuel | intros _].
      apply bind_fuel; [apply ensure_fuel | intros _].
      apply bind_fuel.
      { destruct SCM_CHECK_CONDITIONS; [apply load_page_fuel | done]. }
      intros pg'. apply bind_fuel; [apply ensure_fuel | done].
    + apply bind_fuel; [apply ensure_fuel | intros _]. apply Htail.
  - destruct (firstPage rg =? 0).
    + apply bind_fuel; [apply ensure_fuel | intros _].
      apply bind_fuel; [apply ensure_fuel | done].
    + apply bind_fuel; [apply ensure_fuel | intros _]. apply Htail.
Qed.

End EarlyReturns.

(** ** Properties of [recycle_region] *)

Section ReclaimerProperties.

Variable SCM_CHECK_CONDITIONS : bool.
Variable POOL_BOUND : Z.
Variable PAGE_PAYLOAD_SIZE : Z.
Variable memory_offset : Z.

Local Abbreviation recycle :=
  (recycle_region SCM_CHECK_CONDITIONS POOL_BOUND PAGE_PAYLOAD_SIZE
     memory_offset).
Local Abbreviation payload := (payload_address memory_offset).

(** C1: for a region with [dc == 0], a consistent page chain and a
    recyclable set of [n >= 1] pages (all pages but the first if fresh,
    all pages if zombie), and a pooled count within [POOL_BOUND], the
    call returns and leaves the pooled count at
    [min POOL_BOUND (pooled_before + n)], whether the pages fit or the
    pool overflows: the store of [n - 1] in the overflow branch is
    overwritten before the call returns. *)
Theorem pooled_count_after_recycle region s rg l :
  reclaimable s region rg l ->
  recyclable s rg l <> [] ->
  pool_bounded POOL_BOUND s ->
  exists s',
    recycle region s = Done s'
    /\ number_of_pooled_region_pages (descriptor_root s')
       = Z.min POOL_BOUND
           (number_of_pooled_region_pages (descriptor_root s)
            + Z.of_nat (length (recyclable s rg l))).
Proof.
  intros (Hload & Hdc & Hc) Hrec Hpool.
  destruct (recycle_region_spec SCM_CHECK_CONDITIONS POOL_BOUND
              PAGE_PAYLOAD_SIZE memory_offset region s rg l
              Hload Hdc Hc Hrec Hpool)
    as (s' & Hrun & _ & _ & _ & Hcount & _).
  eauto.
Qed.

(** C3: for a zombie region with [k >= 1] pages and [dc == 0], the
    call returns with the region empty ([number_of_region_pages == 0],
    [firstPage == lastPage == NULL]); of its [k] pages the first
    [max 0 (pooled + k - POOL_BOUND)] were freed and the others are
    chained in front of the former pool, the pooled count being
    [min POOL_BOUND (pooled + k)]. *)
Theorem zombie_region_emptied region s rg l :
  reclaimable s region rg l ->
  l <> [] ->
  fresh s rg = false ->
  pool_bounded POOL_BOUND s ->
  let k := Z.of_nat (length l) in
  let f := Z.to_nat (overflow POOL_BOUND s k) in
  exists s' rg',
    recycle region s = Done s'
    /\ load_region s' region = Done rg'
    /\ number_of_region_pages rg' = 0
    /\ firstPage rg' = 0 /\ lastPage rg' = 0
    /\ freed s' = freed s ++ take f l
    /\ lseg (pages s') (region_page_pool (descriptor_root s'))
         (drop f l) (region_page_pool (descriptor_root s))
    /\ number_of_pooled_region_pages (descriptor_root s')
       = Z.min POOL_BOUND
           (number_of_pooled_region_pages (descriptor_root s) + k).
Proof.
  intros (Hload & Hdc & Hc) Hne Hage Hpool. cbv zeta.
  assert (recyclable s rg l = l) as Hrec
    by (unfold recyclable; by rewrite Hage).
  destruct (recycle_region_spec SCM_CHECK_CONDITIONS POOL_BOUND
              PAGE_PAYLOAD_SIZE memory_offset region s rg l
              Hload Hdc Hc ltac:(by rewrite Hrec) Hpool)
    as (s' & Hrun & Hregions & Hfreed & _ & Hcount & Hseg & _).
  rewrite Hrec, Hage in *.
  apply load_region_inv in Hload as [Hr0 _]. apply Z.eqb_neq in Hr0.
  eexists s', _. split; [exact Hrun|]. split.
  { unfold load_region. rewrite Hr0, Hregions, lookup_insert_eq. done. }
  simpl. repeat split; done.
Qed.

(** C5: under the hypotheses of C1 the call hands
    [max 0 (pooled_before + n - POOL_BOUND)] pages to [__real_free],
    and these are an initial segment of the recyclable chain, freed one
    at a time from its head. *)
Theorem pages_freed_to_allocator region s rg l :
  reclaimable s region rg l ->
  recyclable s rg l <> [] ->
  pool_bounded POOL_BOUND s ->
  exists s' released,
    recycle region s = Done s'
    /\ freed s' = freed s ++ released
    /\ released = take (length released) (recyclable s rg l)
    /\ Z.of_nat (length released)
       = Z.max 0 (number_of_pooled_region_pages (descriptor_root s)
                  + Z.of_nat (length (recyclable s rg l)) - POOL_BOUND).
Proof.
  intros (Hload & Hdc & Hc) Hrec Hpool.
  destruct (recycle_region_spec SCM_CHECK_CONDITIONS POOL_BOUND
              PAGE_PAYLOAD_SIZE memory_offset region s rg l
              Hload Hdc Hc Hrec Hpool)
    as (s' & Hrun & _ & Hfreed & _ & _ & _).
  destruct Hpool as [Hpooled _]. unfold overflow in Hfreed.
  set (n := Z.of_nat (length (recyclable s rg l))) in *.
  set (f := Z.to_nat _) in Hfreed.
  assert (length (take f (recyclable s rg l)) = f) as Hlen
    by (rewrite length_take; unfold f; lia).
  exists s', (take f (recyclable s rg l)).
  rewrite Hlen. repeat split; [done | done | unfold f; lia].
Qed.

(** C4: when the pooled count is within [POOL_BOUND] before a call on a
    region that satisfies the precondition, it is within [POOL_BOUND]
    whenever the call returns; and the call does return when the region
    has a page. *)
Theorem pool_bound_preserved region s rg l :
  reclaimable s region rg l ->
  pool_bounded POOL_BOUND s ->
  (l <> [] -> exists s', recycle region s = Done s')
  /\ (forall s', recycle region s = Done s' -> pool_bounded POOL_BOUND s').
Proof.
  intros (Hload & Hdc & Hc) Hpool.
  assert (forall s', descriptor_root s' = descriptor_root s ->
            pool_bounded POOL_BOUND s') as Hsame.
  { intros s' Hroot. unfold pool_bounded. by rewrite Hroot. }
  destruct (decide (recyclable s rg l = [])) as [Hrec|Hrec].
  - unfold recyclable in Hrec.
    destruct (fresh s rg) eqn:Hage; destruct l as [|fp l]; simplify_eq/=.
    + split; [done|]. intros s' Hrun. apply Hsame.
      eapply recycle_no_page; eauto.
    + pose proof (recycle_fresh_single SCM_CHECK_CONDITIONS POOL_BOUND
                    PAGE_PAYLOAD_SIZE memory_offset region s rg fp
                    Hload Hdc Hc Hage) as Hrun.
      split; [eauto|]. intros s' Hrun'. rewrite Hrun in Hrun'.
      injection Hrun' as <-. by apply Hsame.
    + split; [done|]. intros s' Hrun. apply Hsame.
      eapply recycle_no_page; eauto.
  - destruct (recycle_region_spec SCM_CHECK_CONDITIONS POOL_BOUND
                PAGE_PAYLOAD_SIZE memory_offset region s rg l
                Hload Hdc Hc Hrec Hpool)
      as (s' & Hrun & _ & _ & _ & Hcount & _).
    split; [eauto|]. intros s'' Hrun'. rewrite Hrun in Hrun'.
    injection Hrun' as <-. destruct Hpool as [Hpooled Hbound].
    unfold pool_bounded. rewrite Hcount. lia.
Qed.

(** C8: for a fresh region with exactly one page and [dc == 0] the call
    returns without touching the pool: [region_page_pool] and
    [number_of_pooled_region_pages] are as before, no page is freed and
    no other page is written; [number_of_region_pages] stays 1,
    [firstPage] and [lastPage] are unchanged and equal, the chain keeps
    its shape, and [dc] is 0. *)
Theorem fresh_single_page_returns_early region s rg fp :
  reclaimable s region rg [fp] ->
  fresh s rg = true ->
  exists s' rg',
    recycle region s = Done s'
    /\ load_region s' region = Done rg'
    /\ number_of_region_pages rg' = 1
    /\ firstPage rg' = firstPage rg /\ lastPage rg' = lastPage rg
    /\ firstPage rg' = lastPage rg'
    /\ consistent s' rg' [fp]
    /\ dc rg' = 0
    /\ descriptor_root s' = descriptor_root s
    /\ freed s' = freed s
    /\ (forall x, x <> fp -> pages s' !! x = pages s !! x).
Proof.
  intros (Hload & Hdc & Hc) Hage.
  pose proof (recycle_fresh_single SCM_CHECK_CONDITIONS POOL_BOUND
                PAGE_PAYLOAD_SIZE memory_offset region s rg fp
                Hload Hdc Hc Hage) as Hrun.
  apply consistent_inv in Hc as (Hc & Hlast & Hnum & _).
  apply lseg_cons in Hc as (Hfp & Hfp0 & _).
  apply load_region_inv in Hload as [Hr0 _]. apply Z.eqb_neq in Hr0.
  simpl in Hlast, Hnum.
  eexists _, _. split; [exact Hrun|]. split.
  { unfold load_region. rewrite Hr0. simpl regions.
    by rewrite lookup_insert_eq. }
  simpl. repeat split; try done; try congruence.
  - eapply consistent_single; simpl; try done.
    + apply lookup_insert_eq.
    + done.
  - intros x Hx. by apply lookup_insert_ne.
Qed.

(** C9: after the call on a non-empty zombie region, which leaves
    [firstPage == lastPage == NULL] and [number_of_region_pages == 0],
    the cursor is not cleared: [next_free_address] is the payload
    address of the former first page and [last_address_in_last_page] is
    that address plus the payload size, although that page is now the
    head of the pool or has been freed. *)
Theorem zombie_cursor_left_behind region s rg l :
  reclaimable s region rg l ->
  l <> [] ->
  fresh s rg = false ->
  pool_bounded POOL_BOUND s ->
  exists s' rg',
    recycle region s = Done s'
    /\ load_region s' region = Done rg'
    /\ firstPage rg' = 0 /\ lastPage rg' = 0
    /\ number_of_region_pages rg' = 0
    /\ next_free_address rg' = payload (firstPage rg)
    /\ last_address_in_last_page rg'
       = ulong (payload (firstPage rg) + PAGE_PAYLOAD_SIZE)
    /\ (region_page_pool (descriptor_root s') = firstPage rg
        \/ firstPage rg ∈ freed s').
Proof.
  intros (Hload & Hdc & Hc) Hne Hage Hpool.
  assert (recyclable s rg l = l) as Hrec
    by (unfold recyclable; by rewrite Hage).
  destruct (recycle_region_spec SCM_CHECK_CONDITIONS POOL_BOUND
              PAGE_PAYLOAD_SIZE memory_offset region s rg l
              Hload Hdc Hc ltac:(by rewrite Hrec) Hpool)
    as (s' & Hrun & Hregions & Hfreed & _ & _ & Hseg & _).
  rewrite Hrec, Hage in *.
  apply consistent_inv in Hc as (Hc & _).
  apply load_region_inv in Hload as [Hr0 _]. apply Z.eqb_neq in Hr0.
  destruct l as [|fp l]; [done|].
  apply lseg_cons in Hc as (Hfp & _).
  eexists s', _. split; [exact Hrun|]. split.
  { unfold load_region. rewrite Hr0, Hregions, lookup_insert_eq. done. }
  simpl. repeat split; try done.
  destruct (Z.to_nat (overflow POOL_BOUND s (Z.of_nat (length (fp :: l)))))
    as [|f].
  - left. rewrite drop_0 in Hseg. by apply lseg_cons in Hseg as (-> & _).
  - right. rewrite Hfreed, Hfp. simpl. apply elem_of_app. right. by left.
Qed.


End ReclaimerProperties.

(** ** Properties of [expire_reg_descriptor_if_exists] *)

Section DriverProperties.

Variable SCM_CHECK_CONDITIONS : bool.
Variable POOL_BOUND : Z.
Variable PAGE_PAYLOAD_SIZE : Z.
Variable memory_offset : Z.
Variable source : Type.
Variable get_expired_mem : Z -> source -> Z * source.

Local Abbreviation recycle :=
  (recycle_region SCM_CHECK_CONDITIONS POOL_BOUND PAGE_PAYLOAD_SIZE
     memory_offset).
Local Abbreviation expire :=
  (expire_reg_descriptor_if_exists SCM_CHECK_CONDITIONS POOL_BOUND
     PAGE_PAYLOAD_SIZE memory_offset source get_expired_mem).

(** C6: called on an existing list, the driver returns 0 if and only if
    [get_expired_mem] yields no descriptor, and then it writes nothing:
    the memory is as before and the descriptor buffers are as
    [get_expired_mem] left them.  When a descriptor is yielded, the
    value it returns is 1 whatever the decrement observed; [dc] is
    decremented, and [recycle_region] runs on the region exactly when
    the decrement took [dc] from 1 to 0; on a region with a consistent,
    non-empty chain the driver does return. *)
Theorem expire_reg_descriptor_if_exists_spec lst src s expired_region src' :
  (SCM_CHECK_CONDITIONS = true -> lst <> 0) ->
  get_expired_mem lst src = (expired_region, src') ->
  ((exists src'' s', expire lst src s = Done (0, src'', s'))
   <-> expired_region = 0)
  /\ (expired_region = 0 -> expire lst src s = Done (0, src', s))
  /\ (forall v src'' s',
        expired_region <> 0 ->
        expire lst src s = Done (v, src'', s') -> v = 1)
  /\ (forall rg,
        expired_region <> 0 ->
        load_region s expired_region = Done rg ->
        expire lst src s
        = if dc rg =? 1 then
            s' <-- recycle expired_region
                     (store_region expired_region (set_dc 0 rg) s) ;;
            Done (1, src', s')
          else
            Done (1, src',
                  store_region expired_region
                    (set_dc (sint (dc rg - 1)) rg) s))
  /\ (forall rg l,
        expired_region <> 0 ->
        load_region s expired_region = Done rg ->
        consistent s rg l -> l <> [] -> pool_bounded POOL_BOUND s ->
        exists s', expire lst src s = Done (1, src', s')).
Proof.
  intros Hlist Hget.
  assert (SCM_CHECK_CONDITIONS && (lst =? 0) = false) as Hguard.
  { destruct SCM_CHECK_CONDITIONS; [|done].
    simpl. apply Z.eqb_neq. by apply Hlist. }
  assert (forall v src'' s',
            expired_region <> 0 ->
            expire lst src s = Done (v, src'', s') -> v = 1) as Hone.
  { intros v src'' s' Hp%Z.eqb_neq. unfold expire_reg_descriptor_if_exists.
    rewrite Hguard, Hget, Hp. simpl negb. cbv iota.
    destruct (load_region s expired_region) as [rg| | |]; try done.
    simpl.
    destruct (dc rg =? 1); [destruct (recycle_region _ _ _ _ _ _)|];
      simpl; intros ?; by simplify_eq. }
  assert (forall rg,
            expired_region <> 0 ->
            load_region s expired_region = Done rg ->
            expire lst src s
            = if dc rg =? 1 then
                s' <-- recycle expired_region
                         (store_region expired_region (set_dc 0 rg) s) ;;
                Done (1, src', s')
              else
                Done (1, src',
                      store_region expired_region
                        (set_dc (sint (dc rg - 1)) rg) s)) as Hcall.
  { intros rg Hp%Z.eqb_neq Hload. unfold expire_reg_descriptor_if_exists.
    rewrite Hguard, Hget, Hp, Hload. simpl.
    destruct (dc rg =? 1) eqn:Hdc; [|done].
    apply Z.eqb_eq in Hdc. by rewrite Hdc. }
  assert (expired_region = 0 -> expire lst src s = Done (0, src', s))
    as Hnone.
  { intros ->. unfold expire_reg_descriptor_if_exists.
    by rewrite Hguard, Hget. }
  repeat split.
  - intros (src'' & s' & Hrun).
    destruct (decide (expired_region = 0)) as [|Hp]; [done|].
    by specialize (Hone _ _ _ Hp Hrun).
  - intros Hp. eauto.
  - exact Hnone.
  - exact Hone.
  - exact Hcall.
  - intros rg l Hp Hload Hc Hne Hpool. rewrite (Hcall rg Hp Hload).
    destruct (dc rg =? 1); [|eauto].
    destruct (recycle_region_returns SCM_CHECK_CONDITIONS POOL_BOUND
                PAGE_PAYLOAD_SIZE memory_offset expired_region
                (store_region expired_region (set_dc 0 rg) s)
                (set_dc 0 rg) l) as [s' Hrun]; try done.
    + apply load_region_inv in Hload as [Hr0%Z.eqb_neq _].
      unfold load_region. rewrite Hr0. simpl.
      by rewrite lookup_insert_eq.
    + rewrite Hrun. simpl. eauto.
Qed.

(** The checked build returns 0 at once on a [NULL] list. *)
Lemma expire_null_list src s :
  SCM_CHECK_CONDITIONS = true -> expire 0 src s = Done (0, src, s).
Proof.
  intros Hcheck. unfold expire_reg_descriptor_if_exists. by rewrite Hcheck.
Qed.

End DriverProperties.

(** ** Properties of the atomic decrement *)

Lemma run_dec_and_test_count schedule cell :
  cell = Z.of_nat (length schedule) -> 1 <= cell < 2 ^ 31 ->
  Arch.observers (Arch.run_dec_and_test schedule cell).1
  = option_list (last schedule)
  /\ (Arch.run_dec_and_test schedule cell).1.*1 = schedule
  /\ (Arch.run_dec_and_test schedule cell).2 = 0.
Proof.
  revert cell. induction schedule as [|t rest IH]; intros cell Hcell Hrange.
  - simpl in Hcell. lia.
  - rewrite length_cons in Hcell. simpl.
    unfold Arch.atomic_int_dec_and_test, Arch.atomic_int_exchange_and_add.
    rewrite sint_small by lia.
    destruct rest as [|t' rest].
    + simpl in *. subst cell. done.
    + specialize (IH (cell + -1)).
      rewrite length_cons in Hcell, IH.
      destruct IH as (IH1 & IH2 & IH3); [lia | lia |].
      destruct (Arch.run_dec_and_test (t' :: rest) (cell + -1))
        as [results final].
      assert ((cell =? 1) = false) as -> by (apply Z.eqb_neq; lia).
      simpl in *. unfold Arch.observers in *.
      rewrite filter_cons_False by (simpl; done).
      repeat split; [exact IH1 | by f_equal | exact IH3].
Qed.

(** C10: when [N] threads each call [atomic_int_dec_and_test] once on a
    counter that holds [N], then in whatever order the calls are
    serialised exactly one of them returns true: the one that comes
    last. *)
Theorem dec_and_test_one_observer (N : nat) (schedule : list nat) :
  1 <= Z.of_nat N < 2 ^ 31 ->
  schedule ≡ₚ seq 0 N ->
  exists t,
    Arch.observers (Arch.run_dec_and_test schedule (Z.of_nat N)).1 = [t]
    /\ last schedule = Some t
    /\ (Arch.run_dec_and_test schedule (Z.of_nat N)).1.*1 = schedule
    /\ (Arch.run_dec_and_test schedule (Z.of_nat N)).2 = 0.
Proof.
  intros HN Hperm.
  assert (length schedule = N) as Hlen
    by (rewrite Hperm; apply length_seq).
  destruct (run_dec_and_test_count schedule (Z.of_nat N))
    as (Hobs & Hcalls & Hfinal); [by rewrite Hlen | done |].
  destruct (last schedule) as [t|] eqn:Hlast.
  - exists t. done.
  - apply last_None in Hlast. subst schedule. simpl in Hlen. lia.
Qed.

(** The interleaving semantics agrees: in every execution in which all
    [N] threads have made their call, exactly one call returned true and
    the counter is 0. *)
Lemma release_invariant (N : nat) (cfg : Z * gmap nat bool) :
  Z.of_nat N < 2 ^ 31 ->
  rtc (Arch.release_step N) (Z.of_nat N, ∅) cfg ->
  cfg.1 = Z.of_nat N - Z.of_nat (size cfg.2)
  /\ dom cfg.2 ⊆ set_seq 0 N
  /\ (0 < cfg.1 -> forall t, cfg.2 !! t <> Some true)
  /\ (cfg.1 = 0 -> (0 < N)%nat ->
      exists t, forall t', cfg.2 !! t' = Some true <-> t' = t).
Proof.
  intros HN Hrun. revert cfg Hrun.
  apply rtc_ind_r; [|intros cfg cfg' Hrun Hstep IH].
  - simpl. rewrite map_size_empty.
    repeat split; [lia | set_solver | |].
    + intros _ t. by rewrite lookup_empty.
    + lia.
  - destruct IH as (Hcell & Hdom & Hpos & _).
    destruct Hstep as [t cell returned Ht Hnew]. simpl in *.
    assert (size returned < N)%nat as Hsize.
    { assert (dom returned ⊆ set_seq 0 N ∖ {[t]}) as Hsub.
      { apply not_elem_of_dom in Hnew. intros x Hx.
        apply elem_of_difference. split; [by apply Hdom|].
        intros ->%elem_of_singleton. done. }
      apply subseteq_size in Hsub.
      rewrite size_difference, size_singleton, size_set_seq, size_dom
        in Hsub.
      - lia.
      - apply singleton_subseteq_l, elem_of_set_seq. lia. }
    rewrite sint_small by lia.
    rewrite map_size_insert_None by done.
    repeat split.
    + lia.
    + rewrite dom_insert. apply union_least; [|done].
      apply singleton_subseteq_l, elem_of_set_seq. lia.
    + intros Hcell' t'. destruct (decide (t' = t)) as [->|Hne].
      * rewrite lookup_insert_eq. intros [= Heq]. apply Z.eqb_eq in Heq. lia.
      * rewrite lookup_insert_ne by done. apply Hpos. lia.
    + intros Hcell' _. exists t. intros t'.
      destruct (decide (t' = t)) as [->|Hne].
      * rewrite lookup_insert_eq.
        assert ((cell =? 1) = true) as -> by (apply Z.eqb_eq; lia). done.
      * rewrite lookup_insert_ne by done. split; [|done].
        intros Htrue. exfalso. apply (Hpos ltac:(lia) t' Htrue).
Qed.

Lemma release_all_one_observer (N : nat) cell (returned : gmap nat bool) :
  1 <= Z.of_nat N < 2 ^ 31 ->
  rtc (Arch.release_step N) (Z.of_nat N, ∅) (cell, returned) ->
  (forall t, (t < N)%nat -> is_Some (returned !! t)) ->
  cell = 0
  /\ exists t, forall t', returned !! t' = Some true <-> t' = t.
Proof.
  intros HN Hrun Hall.
  destruct (release_invariant N (cell, returned) ltac:(lia) Hrun)
    as (Hcell & Hdom & _ & Hone). simpl in *.
  assert (dom returned = set_seq 0 N) as Hfull.
  { apply set_eq. intros t. split; [apply Hdom|].
    intros Ht%elem_of_set_seq. apply elem_of_dom, Hall. lia. }
  assert (cell = 0) as Hzero.
  { rewrite Hcell, <- size_dom, Hfull, size_set_seq. lia. }
  split; [done|]. apply Hone; [done | lia].
Qed.

(** ** The properties at work on the example memories *)

Ltac by_evaluation := vm_compute; first [reflexivity | exact I | done].

(** Scenario A: a pool of 8 pages out of 10 and a fresh region with 5
    pages. *)
Lemma pooled_count_after_recycle_witness :
  reclaimable (Examples.memory 5 3 3 8) 64 (Examples.region 5 3)
    (Examples.chain 0 5)
  /\ recyclable (Examples.memory 5 3 3 8) (Examples.region 5 3)
       (Examples.chain 0 5) <> []
  /\ pool_bounded 10 (Examples.memory 5 3 3 8)
  /\ exists s',
       Examples.recycle true 64 (Examples.memory 5 3 3 8) = Done s'
       /\ number_of_pooled_region_pages (descriptor_root s') = 10.
Proof.
  assert (reclaimable (Examples.memory 5 3 3 8) 64 (Examples.region 5 3)
            (Examples.chain 0 5)) as H1
    by (repeat split; by_evaluation).
  assert (recyclable (Examples.memory 5 3 3 8) (Examples.region 5 3)
            (Examples.chain 0 5) <> []) as H2
    by (vm_compute; discriminate).
  assert (pool_bounded 10 (Examples.memory 5 3 3 8)) as H3
    by (split; simpl; lia).
  split; [exact H1|]. split; [exact H2|]. split; [exact H3|].
  exact (pooled_count_after_recycle true 10 48 16 64 _ _ _ H1 H2 H3).
Defined.

(** Scenario B: a pool of 3 pages and a zombie region with 1 page. *)
Lemma zombie_region_emptied_witness :
  reclaimable (Examples.memory 1 2 3 3) 64 (Examples.region 1 2)
    (Examples.chain 0 1)
  /\ Examples.chain 0 1 <> []
  /\ fresh (Examples.memory 1 2 3 3) (Examples.region 1 2) = false
  /\ pool_bounded 10 (Examples.memory 1 2 3 3)
  /\ exists s' rg',
       Examples.recycle true 64 (Examples.memory 1 2 3 3) = Done s'
       /\ load_region s' 64 = Done rg'
       /\ number_of_region_pages rg' = 0
       /\ firstPage rg' = 0 /\ lastPage rg' = 0
       /\ freed s' = []
       /\ lseg (pages s') (region_page_pool (descriptor_root s'))
            [4096] 1052672
       /\ number_of_pooled_region_pages (descriptor_root s') = 4.
Proof.
  assert (reclaimable (Examples.memory 1 2 3 3) 64 (Examples.region 1 2)
            (Examples.chain 0 1)) as H1
    by (repeat split; by_evaluation).
  assert (Examples.chain 0 1 <> []) as H2 by (vm_compute; discriminate).
  assert (fresh (Examples.memory 1 2 3 3) (Examples.region 1 2) = false)
    as H3 by reflexivity.
  assert (pool_bounded 10 (Examples.memory 1 2 3 3)) as H4
    by (split; simpl; lia).
  split; [exact H1|]. split; [exact H2|]. split; [exact H3|].
  split; [exact H4|].
  exact (zombie_region_emptied true 10 48 16 64 _ _ _ H1 H2 H3 H4).
Defined.

(** A pool of 9 pages out of 10 and a fresh region with 3 pages. *)
Lemma pool_bound_preserved_witness :
  reclaimable (Examples.memory 3 3 3 9) 64 (Examples.region 3 3)
    (Examples.chain 0 3)
  /\ pool_bounded 10 (Examples.memory 3 3 3 9)
  /\ (Examples.chain 0 3 <> [] ->
      exists s', Examples.recycle false 64 (Examples.memory 3 3 3 9)
                 = Done s')
  /\ (forall s',
        Examples.recycle false 64 (Examples.memory 3 3 3 9) = Done s' ->
        pool_bounded 10 s').
Proof.
  assert (reclaimable (Examples.memory 3 3 3 9) 64 (Examples.region 3 3)
            (Examples.chain 0 3)) as H1
    by (repeat split; by_evaluation).
  assert (pool_bounded 10 (Examples.memory 3 3 3 9)) as H2
    by (split; simpl; lia).
  split; [exact H1|]. split; [exact H2|].
  exact (pool_bound_preserved false 10 48 16 64 _ _ _ H1 H2).
Defined.

(** A pool of 8 pages out of 10 and a zombie region with 5 pages: the
    first 3 pages are freed. *)
Lemma pages_freed_to_allocator_witness :
  reclaimable (Examples.memory 5 2 3 8) 64 (Examples.region 5 2)
    (Examples.chain 0 5)
  /\ recyclable (Examples.memory 5 2 3 8) (Examples.region 5 2)
       (Examples.chain 0 5) <> []
  /\ pool_bounded 10 (Examples.memory 5 2 3 8)
  /\ exists s' released,
       Examples.recycle true 64 (Examples.memory 5 2 3 8) = Done s'
       /\ freed s' = [] ++ released
       /\ released
          = take (length released) [4096; 8192; 12288; 16384; 20480]
       /\ Z.of_nat (length released) = 3.
Proof.
  assert (reclaimable (Examples.memory 5 2 3 8) 64 (Examples.region 5 2)
            (Examples.chain 0 5)) as H1
    by (repeat split; by_evaluation).
  assert (recyclable (Examples.memory 5 2 3 8) (Examples.region 5 2)
            (Examples.chain 0 5) <> []) as H2
    by (vm_compute; discriminate).
  assert (pool_bounded 10 (Examples.memory 5 2 3 8)) as H3
    by (split; simpl; lia).
  split; [exact H1|]. split; [exact H2|]. split; [exact H3|].
  exact (pages_freed_to_allocator true 10 48 16 64 _ _ _ H1 H2 H3).
Defined.

(** Scenario C: a fresh region with exactly 1 page. *)
Lemma fresh_single_page_returns_early_witness :
  reclaimable (Examples.memory 1 3 3 4) 64 (Examples.region 1 3) [4096]
  /\ fresh (Examples.memory 1 3 3 4) (Examples.region 1 3) = true
  /\ exists s' rg',
       Examples.recycle true 64 (Examples.memory 1 3 3 4) = Done s'
       /\ load_region s' 64 = Done rg'
       /\ number_of_region_pages rg' = 1
       /\ firstPage rg' = 4096 /\ lastPage rg' = 4096
       /\ firstPage rg' = lastPage rg'
       /\ consistent s' rg' [4096]
       /\ dc rg' = 0
       /\ descriptor_root s' = mk_root 3 1052672 4
       /\ freed s' = []
       /\ (forall x, x <> 4096 ->
             pages s' !! x = pages (Examples.memory 1 3 3 4) !! x).
Proof.
  assert (reclaimable (Examples.memory 1 3 3 4) 64 (Examples.region 1 3)
            [4096]) as H1
    by (repeat split; by_evaluation).
  assert (fresh (Examples.memory 1 3 3 4) (Examples.region 1 3) = true)
    as H2 by reflexivity.
  split; [exact H1|]. split; [exact H2|].
  exact (fresh_single_page_returns_early true 10 48 16 64 _ _ _ H1 H2).
Defined.

(** A full pool and a zombie region with 2 pages: both are freed, and the
    cursor still points into the first. *)
Lemma zombie_cursor_left_behind_witness :
  reclaimable (Examples.memory 2 1 3 10) 64 (Examples.region 2 1)
    (Examples.chain 0 2)
  /\ Examples.chain 0 2 <> []
  /\ fresh (Examples.memory 2 1 3 10) (Examples.region 2 1) = false
  /\ pool_bounded 10 (Examples.memory 2 1 3 10)
  /\ exists s' rg',
       Examples.recycle false 64 (Examples.memory 2 1 3 10) = Done s'
       /\ load_region s' 64 = Done rg'
       /\ firstPage rg' = 0 /\ lastPage rg' = 0
       /\ number_of_region_pages rg' = 0
       /\ next_free_address rg' = 4112
       /\ last_address_in_last_page rg' = 4160
       /\ (region_page_pool (descriptor_root s') = 4096
           \/ 4096 ∈ freed s').
Proof.
  assert (reclaimable (Examples.memory 2 1 3 10) 64 (Examples.region 2 1)
            (Examples.chain 0 2)) as H1
    by (repeat split; by_evaluation).
  assert (Examples.chain 0 2 <> []) as H2 by (vm_compute; discriminate).
  assert (fresh (Examples.memory 2 1 3 10) (Examples.region 2 1) = false)
    as H3 by reflexivity.
  assert (pool_bounded 10 (Examples.memory 2 1 3 10)) as H4
    by (split; simpl; lia).
  split; [exact H1|]. split; [exact H2|]. split; [exact H3|].
  split; [exact H4|].
  exact (zombie_cursor_left_behind false 10 48 16 64 _ _ _ H1 H2 H3 H4).
Defined.

(** Three threads release their descriptors in the order 1, 0, 2. *)
Lemma dec_and_test_one_observer_witness :
  1 <= Z.of_nat 3 < 2 ^ 31
  /\ [1; 0; 2]%nat ≡ₚ seq 0 3
  /\ exists t,
       Arch.observers (Arch.run_dec_and_test [1; 0; 2]%nat 3).1 = [t]
       /\ last [1; 0; 2]%nat = Some t
       /\ (Arch.run_dec_and_test [1; 0; 2]%nat 3).1.*1 = [1; 0; 2]%nat
       /\ (Arch.run_dec_and_test [1; 0; 2]%nat 3).2 = 0.
Proof.
  assert (1 <= Z.of_nat 3 < 2 ^ 31) as H1 by (simpl; lia).
  assert ([1; 0; 2]%nat ≡ₚ seq 0 3) as H2 by apply perm_swap.
  split; [exact H1|]. split; [exact H2|].
  exact (dec_and_test_one_observer 3 [1; 0; 2]%nat H1 H2).
Defined.

(** The last descriptor of a fresh region with 2 pages expires. *)
Lemma expire_reg_descriptor_if_exists_spec_witness :
  (true = true -> 7 <> 0)
  /\ Examples.take_first 7 [64] = (64, [])
  /\ ((exists src'' s',
         Examples.expire true 7 [64] (Examples.referenced 1 2 3 3 0)
         = Done (0, src'', s'))
      <-> 64 = 0)
  /\ (64 = 0 ->
      Examples.expire true 7 [64] (Examples.referenced 1 2 3 3 0)
      = Done (0, [], Examples.referenced 1 2 3 3 0))
  /\ (forall v src'' s',
        64 <> 0 ->
        Examples.expire true 7 [64] (Examples.referenced 1 2 3 3 0)
        = Done (v, src'', s') -> v = 1)
  /\ (forall rg,
        64 <> 0 ->
        load_region (Examples.referenced 1 2 3 3 0) 64 = Done rg ->
        Examples.expire true 7 [64] (Examples.referenced 1 2 3 3 0)
        = if dc rg =? 1 then
            s' <-- Examples.recycle true 64
                     (store_region 64 (set_dc 0 rg)
                        (Examples.referenced 1 2 3 3 0)) ;;
            Done (1, [], s')
          else
            Done (1, [],
                  store_region 64 (set_dc (sint (dc rg - 1)) rg)
                    (Examples.referenced 1 2 3 3 0)))
  /\ (forall rg l,
        64 <> 0 ->
        load_region (Examples.referenced 1 2 3 3 0) 64 = Done rg ->
        consistent (Examples.referenced 1 2 3 3 0) rg l -> l <> [] ->
        pool_bounded 10 (Examples.referenced 1 2 3 3 0) ->
        exists s',
          Examples.expire true 7 [64] (Examples.referenced 1 2 3 3 0)
          = Done (1, [], s')).
Proof.
  assert (true = true -> 7 <> 0) as H1 by (intros _; lia).
  assert (Examples.take_first 7 [64] = (64, [])) as H2 by reflexivity.
  split; [exact H1|]. split; [exact H2|].
  exact (expire_reg_descriptor_if_exists_spec true 10 48 16 (list Z)
           Examples.take_first 7 [64] (Examples.referenced 1 2 3 3 0)
           64 [] H1 H2).
Defined.

(** ** The bound of the cursor on the two reset paths *)

(** Where the payload lies within the address space, the address stored at
    lines 271-272 is one above the usable bound stored at lines 87-88. *)
Lemma end_of_payload_above_usable_bound PAGE_PAYLOAD_SIZE base_address :
  0 < base_address + PAGE_PAYLOAD_SIZE < 2 ^ 64 ->
  ulong (base_address + PAGE_PAYLOAD_SIZE)
  = usable_bound PAGE_PAYLOAD_SIZE base_address + 1.
Proof.
  intros H. unfold usable_bound. rewrite !ulong_small by lia. lia.
Qed.

(** C7, evaluated: on a fresh region with one page (lines 87-88) the call
    leaves [last_address_in_last_page] at the usable bound of the page,
    [base_address + PAGE_PAYLOAD_SIZE - 1]; on the same region with two
    pages (lines 271-272) it leaves it one above. *)
Theorem cursor_bound_early_path_and_reanchor :
  (exists s' rg',
     Examples.recycle true 64 (Examples.memory 1 3 3 0) = Done s'
     /\ load_region s' 64 = Done rg'
     /\ firstPage rg' = 4096
     /\ last_address_in_last_page rg'
        = usable_bound 48 (payload_address 16 4096))
  /\ (exists s' rg',
        Examples.recycle true 64 (Examples.memory 2 3 3 0) = Done s'
        /\ load_region s' 64 = Done rg'
        /\ firstPage rg' = 4096
        /\ last_address_in_last_page rg'
           = usable_bound 48 (payload_address 16 4096) + 1).
Proof.
  split; eexists _, _;
    (split; [by_evaluation|]); (split; [by_evaluation|]);
    split; by_evaluation.
Qed.


(** ** What a call may write *)

Lemma bind_Done {A B} (m : outcome A) (k : A -> outcome B) b :
  bind m k = Done b -> exists a, m = Done a /\ k a = Done b.
Proof. destruct m; simpl; [eauto | done..]. Qed.

Lemma ensure_Done check violated u :
  ensure check violated = Done u -> check = true -> violated = false.
Proof. unfold ensure. intros H ->. by destruct violated. Qed.

Lemma load_page_Done s p pg :
  load_page s p = Done pg -> p <> 0 /\ pages s !! p = Some pg.
Proof.
  unfold load_page. destruct (p =? 0) eqn:Hp; [done|].
  apply Z.eqb_neq in Hp. destruct (pages s !! p); [|done].
  by intros [= ->].
Qed.

Lemma page_effect_refl written s : page_effect written [] s s.
Proof.
  unfold page_effect. rewrite app_nil_r, list_to_set_nil.
  repeat split; try done. set_solver.
Qed.

Lemma page_effect_trans written r1 r2 s1 s2 s3 :
  page_effect written r1 s1 s2 -> page_effect written r2 s2 s3 ->
  page_effect written (r1 ++ r2) s1 s3.
Proof.
  intros (Hreg1 & Ht1 & Hf1 & Hd1 & Hp1) (Hreg2 & Ht2 & Hf2 & Hd2 & Hp2).
  unfold page_effect.
  rewrite Hreg2, Ht2, Hf2, Hf1, Hd2, Hd1, list_to_set_app_L, app_assoc.
  repeat split; try done; [set_solver|].
  intros x Hw [H1 H2]%not_elem_of_app. rewrite Hp2, Hp1; done.
Qed.

Lemma page_effect_root written released s s' d :
  page_effect written released s s' ->
  current_time d = current_time (descriptor_root s') ->
  page_effect written released s (with_root d s').
Proof.
  intros (Hreg & Ht & Hf & Hd & Hp) Hd'. unfold page_effect. simpl.
  by rewrite Hd', Ht.
Qed.

(** Overwriting an allocated page. *)
Lemma page_effect_write written s p pg :
  is_Some (pages s !! p) -> p ∈ written ->
  page_effect written [] s (with_pages (<[p := pg]> (pages s)) s).
Proof.
  intros Hp Hw. unfold page_effect. simpl.
  rewrite app_nil_r, dom_insert_lookup_L by done.
  repeat split; try done; [set_solver|].
  intros x Hx _. apply lookup_insert_ne. intros ->. done.
Qed.

Lemma page_effect_store_nextPage written p v s s' :
  store_nextPage p v s = Done s' -> p ∈ written ->
  page_effect written [] s s'.
Proof.
  unfold store_nextPage.
  intros (pg & [_ Hpg]%load_page_Done & [= <-])%bind_Done Hw.
  apply page_effect_write; eauto.
Qed.

Lemma page_effect_real_free written p s :
  page_effect written [p] s (real_free p s).
Proof.
  unfold page_effect. simpl. rewrite dom_delete_L.
  repeat split; try done; [set_solver|].
  intros x _ Hx. apply lookup_delete_ne. set_solver.
Qed.

Section EffectFacts.

Variable SCM_CHECK_CONDITIONS : bool.
Variable POOL_BOUND : Z.
Variable PAGE_PAYLOAD_SIZE : Z.
Variable memory_offset : Z.

Lemma page_effect_free_loop written fuel pooled s p n s' p' n' :
  free_loop POOL_BOUND fuel pooled s p n = Done (s', p', n') ->
  exists released, page_effect written released s s'.
Proof.
  revert s p n. induction fuel as [|fuel IH]; intros s p n; simpl.
  - destruct (negb _ && _); [done|]. intros [= <- _ _].
    eexists. apply page_effect_refl.
  - destruct (negb _ && _).
    + intros (pg & _ & (released & Hrest)%IH)%bind_Done.
      exists ([p] ++ released). eapply page_effect_trans; [|exact Hrest].
      apply page_effect_real_free.
    + intros [= <- _ _]. eexists. apply page_effect_refl.
Qed.

Lemma page_effect_pool_or_free written rg legacy n s s' :
  pool_or_free POOL_BOUND rg legacy n s = Done s' ->
  lastPage rg ∈ written ->
  exists released, page_effect written released s s'.
Proof.
  unfold pool_or_free. intros Hrun Hw. destruct (_ <=? _).
  - apply bind_Done in Hrun as (s1 & Hstore & [= <-]).
    exists []. do 2 (apply page_effect_root; [|done]).
    by eapply page_effect_store_nextPage.
  - apply bind_Done in Hrun as ([[s1 page2free] n1] & Hloop & Hrun).
    apply (page_effect_free_loop written) in Hloop as [released Hloop].
    apply bind_Done in Hrun as (s2 & Hsplice & [= <-]).
    exists (released ++ []). apply page_effect_root; [|done].
    eapply page_effect_trans; [exact Hloop|].
    destruct (negb _ && _); [|injection Hsplice as <-; apply page_effect_refl].
    destruct (negb _);
      [|injection Hsplice as <-; apply page_effect_refl].
    apply bind_Done in Hsplice as (s3 & Hstore & [= <-]).
    do 2 (apply page_effect_root; [|done]).
    by eapply page_effect_store_nextPage.
Qed.

(** Every call that returns has read [*region], written it back with
    the same [age] and with [dc] at 0 or as it was, and has otherwise
    only written the region's first and last page and freed pages. *)
Lemma recycle_region_effect region s s' :
  recycle_region SCM_CHECK_CONDITIONS POOL_BOUND PAGE_PAYLOAD_SIZE
    memory_offset region s = Done s' ->
  exists rg rg' s2 released,
    load_region s region = Done rg
    /\ s' = store_region region rg' s2
    /\ page_effect [firstPage rg; lastPage rg] released s s2
    /\ age rg' = age rg
    /\ (dc rg' = 0 \/ dc rg' = dc rg)
    /\ (SCM_CHECK_CONDITIONS = true -> dc rg = 0).
Proof.
  unfold recycle_region. intros Hrun.
  apply bind_Done in Hrun as (_ & _ & Hrun).
  apply bind_Done in Hrun as (rg & Hload & Hrun).
  apply bind_Done in Hrun as (_ & _ & Hrun).
  apply bind_Done in Hrun as (u & Hdc & Hrun).
  assert (SCM_CHECK_CONDITIONS = true -> dc rg = 0) as Hchecked.
  { intros Hcheck. apply (ensure_Done _ _ _ Hdc) in Hcheck.
    apply negb_false_iff, Z.eqb_eq in Hcheck. done. }
  assert (forall rg1 legacy n s1 r1,
            page_effect [firstPage rg; lastPage rg] r1 s s1 ->
            lastPage rg1 = lastPage rg -> age rg1 = age rg ->
            dc rg1 = dc rg ->
            (s2 <-- pool_or_free POOL_BOUND rg1 legacy n s1 ;;
             rg' <-- reanchor SCM_CHECK_CONDITIONS PAGE_PAYLOAD_SIZE
                       memory_offset rg1 s2 ;;
             Done (store_region region rg' s2)) = Done s' ->
            exists rg' s2 released,
              s' = store_region region rg' s2
              /\ page_effect [firstPage rg; lastPage rg] released s s2
              /\ age rg' = age rg
              /\ (dc rg' = 0 \/ dc rg' = dc rg)) as Htail.
  { intros rg1 legacy n s1 r1 H1 Hlast Hage Hdc1 Htail.
    apply bind_Done in Htail as (s2 & Hpool & Htail).
    rewrite reanchor_spec in Htail. simpl in Htail.
    injection Htail as Hs'.
    apply (page_effect_pool_or_free [firstPage rg; lastPage rg])
      in Hpool as [r2 Hpool]; [|rewrite Hlast; set_solver].
    eexists _, s2, (r1 ++ r2). split; [symmetry; exact Hs'|].
    split; [by eapply page_effect_trans|]. simpl. auto. }
  exists rg.
  destruct (age rg =? _).
  - apply bind_Done in Hrun as (pg & [_ Hpg]%load_page_Done & Hrun).
    apply bind_Done in Hrun as (s1 & Hmemset & Hrun).
    unfold memset_page in Hmemset.
    apply bind_Done in Hmemset as (_ & _ & [= <-]).
    assert (page_effect [firstPage rg; lastPage rg] [] s
              (with_pages
                 (<[firstPage rg := zero_page PAGE_PAYLOAD_SIZE]> (pages s))
                 s)) as Hzero
      by (apply page_effect_write; [eauto | set_solver]).
    destruct (nextPage pg =? 0).
    + apply bind_Done in Hrun as (_ & _ & Hrun).
      apply bind_Done in Hrun as (_ & _ & Hrun).
      apply bind_Done in Hrun as (pg0 & _ & Hrun).
      apply bind_Done in Hrun as (_ & _ & [= <-]).
      eexists _, _, []. split; [done|]. split; [reflexivity|].
      split; [exact Hzero|]. simpl. auto.
    + apply bind_Done in Hrun as (_ & _ & Hrun).
      eapply Htail in Hrun as (rg' & s2 & released & Hrun);
        [|exact Hzero|done..].
      exists rg', s2, released. destruct Hrun as (? & ? & ? & ?).
      repeat (split; [done|]). done.
  - destruct (firstPage rg =? 0).
    + apply bind_Done in Hrun as (_ & _ & Hrun).
      apply bind_Done in Hrun as (_ & _ & [= <-]).
      eexists _, s, []. split; [done|]. split; [reflexivity|].
      split; [apply page_effect_refl|]. simpl. auto.
    + apply bind_Done in Hrun as (_ & _ & Hrun).
      eapply Htail in Hrun as (rg' & s2 & released & Hrun);
        [|apply page_effect_refl|done..].
      exists rg', s2, released. destruct Hrun as (? & ? & ? & ?).
      repeat (split; [done|]). done.
Qed.

End EffectFacts.

(** ** Further properties of [recycle_region] *)

Lemma pool_consistent_inv s lp :
  pool_consistent s lp ->
  lseg (pages s) (region_page_pool (descriptor_root s)) lp 0
  /\ number_of_pooled_region_pages (descriptor_root s)
     = Z.of_nat (length lp).
Proof. unfold pool_consistent. by rewrite andb_True, Zeqb_True. Qed.

Lemma pool_consistent_intro s lp :
  lseg (pages s) (region_page_pool (descriptor_root s)) lp 0 ->
  number_of_pooled_region_pages (descriptor_root s) = Z.of_nat (length lp) ->
  pool_consistent s lp.
Proof. unfold pool_consistent. by rewrite andb_True, Zeqb_True. Qed.

Section ReclaimerInvariants.

Variable SCM_CHECK_CONDITIONS : bool.
Variable POOL_BOUND : Z.
Variable PAGE_PAYLOAD_SIZE : Z.
Variable memory_offset : Z.

Local Abbreviation recycle :=
  (recycle_region SCM_CHECK_CONDITIONS POOL_BOUND PAGE_PAYLOAD_SIZE
     memory_offset).

(** X1: the pool stays a well-formed list whose length is the pooled
    count.  When the pool is a [NULL]-terminated chain of
    [number_of_pooled_region_pages] pages that shares no page with the
    region's chain, then after the call it is the chain of the recycled
    pages that were not freed followed by the former pool, and the count
    is again its length. *)
Theorem pool_stays_consistent region s rg l lp :
  reclaimable s region rg l ->
  l <> [] ->
  pool_bounded POOL_BOUND s ->
  pool_consistent s lp ->
  NoDup (l ++ lp) ->
  let n := Z.of_nat (length (recyclable s rg l)) in
  let f := Z.to_nat (overflow POOL_BOUND s n) in
  exists s',
    recycle region s = Done s'
    /\ pool_consistent s' (drop f (recyclable s rg l) ++ lp).
Proof.
  intros (Hload & Hdc & Hc) Hne Hpool (Hlp & Hcount)%pool_consistent_inv
    (_ & Hdisj & _)%NoDup_app. cbv zeta.
  pose proof Hpool as [Hpooled Hbound].
  destruct (decide (recyclable s rg l = [])) as [Hrec|Hrec].
  - rewrite Hrec. simpl. rewrite drop_nil. simpl.
    unfold recyclable in Hrec.
    destruct (fresh s rg) eqn:Hage; [|done].
    destruct l as [|fp [|y l]]; try done.
    rewrite (recycle_fresh_single SCM_CHECK_CONDITIONS POOL_BOUND
               PAGE_PAYLOAD_SIZE memory_offset region s rg fp) by done.
    eexists. split; [reflexivity|].
    apply pool_consistent_intro; simpl; [|done].
    eapply lseg_frame; [|exact Hlp]. intros x Hx.
    apply lookup_insert_ne. intros ->. apply (Hdisj x); [by left | done].
  - destruct (recycle_region_spec SCM_CHECK_CONDITIONS POOL_BOUND
                PAGE_PAYLOAD_SIZE memory_offset region s rg l
                Hload Hdc Hc Hrec Hpool)
      as (s' & Hrun & _ & _ & _ & Hcount' & Hseg & Hframe).
    exists s'. split; [exact Hrun|].
    assert (forall x, x ∈ recyclable s rg l -> x ∈ l) as Hsub.
    { intros x. unfold recyclable. destruct (fresh s rg); [|done].
      destruct l; [done|]. simpl. by right. }
    assert (forall x, x ∈ lp -> x ∉ recyclable s rg l) as Hlp1
      by (intros x Hx Hin; apply (Hdisj x); auto).
    apply pool_consistent_intro.
    + apply lseg_app. eexists. split; [exact Hseg|].
      eapply lseg_frame; [|exact Hlp]. intros x Hx.
      rewrite Hframe by auto.
      destruct (fresh s rg); [|done].
      apply lookup_insert_ne. intros <-.
      apply consistent_inv in Hc as (Hc & _).
      destruct l as [|fp l]; [done|].
      apply lseg_cons in Hc as (Hfp & _).
      apply (Hdisj (firstPage rg)); [rewrite Hfp; by left | done].
    + rewrite Hcount', length_app, length_drop. unfold overflow. lia.
Qed.

(** X2: a call that returns has written no region but its own; it has
    kept the region's [age] and the epoch, and it leaves [dc] at 0
    whenever [dc] was 0 on entry, and always in the checked build. *)
Theorem recycle_region_keeps_other_regions region s s' :
  recycle region s = Done s' ->
  exists rg rg',
    load_region s region = Done rg
    /\ load_region s' region = Done rg'
    /\ age rg' = age rg
    /\ (dc rg = 0 -> dc rg' = 0)
    /\ (SCM_CHECK_CONDITIONS = true -> dc rg' = 0)
    /\ (forall r, r <> region -> regions s' !! r = regions s !! r)
    /\ current_time (descriptor_root s') = current_time (descriptor_root s).
Proof.
  intros (rg & rg' & s2 & released & Hload & -> & Heffect & Hage & Hdc
          & Hchecked)%recycle_region_effect.
  destruct Heffect as (Hregions & Htime & _).
  pose proof Hload as [Hr0%Z.eqb_neq _]%load_region_inv.
  exists rg, rg'. split; [done|]. split.
  { unfold load_region. rewrite Hr0. simpl. by rewrite lookup_insert_eq. }
  repeat split; try done.
  - intros Hzero. destruct Hdc; congruence.
  - intros Hcheck. specialize (Hchecked Hcheck). destruct Hdc; congruence.
  - intros r Hr. simpl. rewrite lookup_insert_ne by done. by rewrite Hregions.
Qed.

(** X3: a call that returns allocates no page and loses none: the pages
    allocated afterwards are those allocated before minus the ones it
    handed to [__real_free]; and the only pages it can have written are
    the region's first page and its last page. *)
Theorem recycle_region_page_accounting region s s' :
  recycle region s = Done s' ->
  exists rg released,
    load_region s region = Done rg
    /\ freed s' = freed s ++ released
    /\ dom (pages s') = dom (pages s) ∖ list_to_set released
    /\ (forall x, x ∈ released -> pages s' !! x = None)
    /\ (forall x,
          x <> firstPage rg -> x <> lastPage rg -> x ∉ released ->
          pages s' !! x = pages s !! x).
Proof.
  intros (rg & rg' & s2 & released & Hload & -> & Heffect & _)
    %recycle_region_effect.
  destruct Heffect as (_ & _ & Hfreed & Hdom & Hpages).
  exists rg, released. simpl. repeat split; try done.
  - intros x Hx. apply not_elem_of_dom. rewrite Hdom.
    apply not_elem_of_difference. right. by apply elem_of_list_to_set.
  - intros x H1 H2 H3. apply Hpages; [|done].
    intros [->|[->|[]%elem_of_nil]%elem_of_cons]%elem_of_cons; done.
Qed.

End ReclaimerInvariants.

Section ReclaimerEdges.

Variable SCM_CHECK_CONDITIONS : bool.
Variable POOL_BOUND : Z.
Variable PAGE_PAYLOAD_SIZE : Z.
Variable memory_offset : Z.

Local Abbreviation recycle :=
  (recycle_region SCM_CHECK_CONDITIONS POOL_BOUND PAGE_PAYLOAD_SIZE
     memory_offset).
Local Abbreviation payload := (payload_address memory_offset).

(** X4: on a region with a consistent chain the checked build never
    dereferences a bad pointer: it exits exactly when a descriptor still
    refers to the region ([dc != 0]) or the region has no page, and it
    returns otherwise. *)
Theorem checked_build_exits_iff region s rg l :
  load_region s region = Done rg ->
  consistent s rg l ->
  pool_bounded POOL_BOUND s ->
  (recycle_region true POOL_BOUND PAGE_PAYLOAD_SIZE memory_offset region s
   = Abort
   <-> dc rg <> 0 \/ l = [])
  /\ (dc rg = 0 -> l <> [] ->
      exists s',
        recycle_region true POOL_BOUND PAGE_PAYLOAD_SIZE memory_offset
          region s = Done s').
Proof.
  intros Hload Hc Hpool.
  assert (dc rg <> 0 \/ l = [] ->
          recycle_region true POOL_BOUND PAGE_PAYLOAD_SIZE memory_offset
            region s = Abort) as Hexit.
  { intros Hbad.
    pose proof Hload as [Hr0%Z.eqb_neq _]%load_region_inv.
    apply consistent_inv in Hc as (Hc & Hlast & _).
    unfold recycle_region. rewrite Hr0, ensure_false, Hload. simpl bind.
    destruct l as [|fp l].
    - apply lseg_nil in Hc. rewrite Hc. done.
    - destruct Hbad as [Hdc|]; [|done].
      assert (lastPage rg <> 0) as Hlast0.
      { rewrite Hlast.
        destruct (last (fp :: l)) as [z|] eqn:Hz;
          [|by apply last_None in Hz].
        apply last_Some_elem_of in Hz. simpl.
        by eapply lseg_nonnull. }
      apply lseg_cons in Hc as (Hfp & Hfp0 & _).
      apply Z.eqb_neq in Hlast0, Hfp0, Hdc.
      rewrite Hfp, Hfp0, Hlast0, Hdc. simpl orb. simpl negb.
      by rewrite ensure_false. }
  assert (dc rg = 0 -> l <> [] ->
          exists s',
            recycle_region true POOL_BOUND PAGE_PAYLOAD_SIZE memory_offset
              region s = Done s') as Hreturn
    by (intros; by eapply recycle_region_returns).
  split; [|exact Hreturn]. split; [|exact Hexit].
  intros Habort. destruct (decide (dc rg = 0)) as [Hdc|]; [|by left].
  destruct l; [by right|].
  destruct (Hreturn Hdc) as [s' Hrun]; [done|]. congruence.
Qed.

(** X5: a region without any page in the production build.  If it is a
    zombie the call returns at once and has only stored 0 to [dc]; if it
    is fresh the call dereferences its [NULL] [firstPage]. *)
Theorem production_build_on_empty_region region s rg :
  load_region s region = Done rg ->
  consistent s rg [] ->
  recycle_region false POOL_BOUND PAGE_PAYLOAD_SIZE memory_offset region s
  = if fresh s rg then Fault
    else Done (store_region region (set_dc 0 rg) s).
Proof.
  intros Hload (Hfp%lseg_nil & _)%consistent_inv.
  pose proof Hload as [Hr0%Z.eqb_neq _]%load_region_inv.
  unfold recycle_region, fresh.
  rewrite Hr0, !ensure_unchecked, Hload. simpl bind. rewrite Hfp.
  by destruct (age rg =? _).
Qed.

(** X6: recycling a fresh region a second time.  After a call that
    recycled pages, a second call on the same region in the same epoch
    takes the early path: the pool, the freed pages, every page and the
    region's chain stay as the first call left them, but
    [last_address_in_last_page], which the first call left at the end of
    the payload, is now the usable bound of the page, one below. *)
Theorem recycle_fresh_region_twice region s rg fp l :
  reclaimable s region rg (fp :: l) ->
  l <> [] ->
  fresh s rg = true ->
  pool_bounded POOL_BOUND s ->
  exists s1 s2 rg1,
    recycle region s = Done s1
    /\ load_region s1 region = Done rg1
    /\ last_address_in_last_page rg1 = ulong (payload fp + PAGE_PAYLOAD_SIZE)
    /\ recycle region s1 = Done s2
    /\ s2 = store_region region
              (set_last_address_in_last_page
                 (usable_bound PAGE_PAYLOAD_SIZE (payload fp)) rg1) s1.
Proof.
  intros (Hload & Hdc & Hc) Hne Hage Hpool.
  assert (recyclable s rg (fp :: l) = l) as Hrec
    by (unfold recyclable; by rewrite Hage).
  destruct (recycle_region_spec SCM_CHECK_CONDITIONS POOL_BOUND
              PAGE_PAYLOAD_SIZE memory_offset region s rg (fp :: l)
              Hload Hdc Hc ltac:(by rewrite Hrec) Hpool)
    as (s1 & Hrun & Hregions & _ & Htime & _ & _ & Hframe).
  rewrite Hrec, Hage in *.
  apply consistent_inv in Hc as (Hc & _).
  pose proof (lseg_null_NoDup _ _ _ Hc) as [Hfpl _]%NoDup_cons.
  apply lseg_cons in Hc as (Hfp & Hfp0 & _).
  pose proof Hload as [Hr0%Z.eqb_neq _]%load_region_inv.
  pose proof (Hframe fp Hfpl) as Hpage.
  rewrite Hfp, lookup_insert_eq in Hpage. rewrite Hfp in Hregions.
  set (rg1 := mk_region 0 1 (payload fp)
                (ulong (payload fp + PAGE_PAYLOAD_SIZE)) fp fp (age rg))
    in *.
  assert (load_region s1 region = Done rg1) as Hload1.
  { unfold load_region. by rewrite Hr0, Hregions, lookup_insert_eq. }
  exists s1, (store_region region
                (set_last_address_in_last_page
                   (usable_bound PAGE_PAYLOAD_SIZE (payload fp)) rg1) s1),
    rg1.
  split; [exact Hrun|]. split; [exact Hload1|]. split; [done|].
  split; [|done].
  rewrite (recycle_fresh_single SCM_CHECK_CONDITIONS POOL_BOUND
             PAGE_PAYLOAD_SIZE memory_offset region s1 rg1 fp); try done.
  - f_equal. unfold store_region, with_pages. simpl.
    by rewrite (insert_id (pages s1) fp).
  - by eapply consistent_single.
  - unfold fresh in *. by rewrite Htime.
Qed.

(** X7: recycling a zombie region a second time.  The first call empties
    the region; on the emptied region the production build returns with
    the memory exactly as it found it, and the checked build exits. *)
Theorem recycle_zombie_region_twice region s rg l :
  reclaimable s region rg l ->
  l <> [] ->
  fresh s rg = false ->
  pool_bounded POOL_BOUND s ->
  exists s1,
    recycle region s = Done s1
    /\ recycle_region false POOL_BOUND PAGE_PAYLOAD_SIZE memory_offset
         region s1 = Done s1
    /\ recycle_region true POOL_BOUND PAGE_PAYLOAD_SIZE memory_offset
         region s1 = Abort.
Proof.
  intros (Hload & Hdc & Hc) Hne Hage Hpool.
  assert (recyclable s rg l = l) as Hrec
    by (unfold recyclable; by rewrite Hage).
  destruct (recycle_region_spec SCM_CHECK_CONDITIONS POOL_BOUND
              PAGE_PAYLOAD_SIZE memory_offset region s rg l
              Hload Hdc Hc ltac:(by rewrite Hrec) Hpool)
    as (s1 & Hrun & Hregions & _ & Htime & _).
  rewrite Hage in *.
  pose proof Hload as [Hr0%Z.eqb_neq _]%load_region_inv.
  set (rg1 := mk_region 0 0 (payload (firstPage rg))
                (ulong (payload (firstPage rg) + PAGE_PAYLOAD_SIZE)) 0 0
                (age rg)) in *.
  assert (load_region s1 region = Done rg1) as Hload1.
  { unfold load_region. by rewrite Hr0, Hregions, lookup_insert_eq. }
  assert (fresh s1 rg1 = false) as Hage1
    by (unfold fresh in *; by rewrite Htime).
  exists s1. split; [exact Hrun|].
  unfold recycle_region. unfold fresh in Hage1.
  rewrite Hr0, !ensure_unchecked, ensure_false, Hload1. simpl bind.
  split.
  - simpl in Hage1. rewrite Hage1. simpl. f_equal.
    destruct s1 as [regions1 pages1 root1 freed1]. simpl in *.
    unfold store_region. simpl. by rewrite Hregions, insert_insert_eq.
  - done.
Qed.

End ReclaimerEdges.

(** ** Draining the expired descriptors of one region *)

Section DrainingProperties.

Variable SCM_CHECK_CONDITIONS : bool.
Variable POOL_BOUND : Z.
Variable PAGE_PAYLOAD_SIZE : Z.
Variable memory_offset : Z.
Variable source : Type.
Variable get_expired_mem : Z -> source -> Z * source.

Local Abbreviation recycle :=
  (recycle_region SCM_CHECK_CONDITIONS POOL_BOUND PAGE_PAYLOAD_SIZE
     memory_offset).
Local Abbreviation expire :=
  (expire_reg_descriptor_if_exists SCM_CHECK_CONDITIONS POOL_BOUND
     PAGE_PAYLOAD_SIZE memory_offset source get_expired_mem).
Local Abbreviation expire_n :=
  (expire_repeatedly SCM_CHECK_CONDITIONS POOL_BOUND PAGE_PAYLOAD_SIZE
     memory_offset source get_expired_mem).
Local Abbreviation yields_n := (yields source get_expired_mem).

(** One call on a yielded descriptor. *)
Lemma expire_call lst src s r src' rg :
  (SCM_CHECK_CONDITIONS = true -> lst <> 0) ->
  get_expired_mem lst src = (r, src') ->
  r <> 0 ->
  load_region s r = Done rg ->
  expire lst src s
  = if dc rg =? 1 then
      s' <-- recycle r (store_region r (set_dc 0 rg) s) ;;
      Done (1, src', s')
    else
      Done (1, src', store_region r (set_dc (sint (dc rg - 1)) rg) s).
Proof.
  intros Hlist Hget Hr%Z.eqb_neq Hload.
  assert (SCM_CHECK_CONDITIONS && (lst =? 0) = false) as Hguard.
  { destruct SCM_CHECK_CONDITIONS; [|done].
    simpl. apply Z.eqb_neq. by apply Hlist. }
  unfold expire_reg_descriptor_if_exists.
  rewrite Hguard, Hget, Hr, Hload. simpl.
  destruct (dc rg =? 1) eqn:Hdc; [|done].
  apply Z.eqb_eq in Hdc. by rewrite Hdc.
Qed.

Lemma store_region_twice r rg1 rg2 s :
  store_region r rg2 (store_region r rg1 s) = store_region r rg2 s.
Proof. unfold store_region. simpl. by rewrite insert_insert_eq. Qed.

Lemma load_store_region r rg s :
  r <> 0 -> load_region (store_region r rg s) r = Done rg.
Proof.
  intros Hr%Z.eqb_neq. unfold load_region. rewrite Hr. simpl.
  by rewrite lookup_insert_eq.
Qed.

(** X8: when [n] descriptors of one region expire and the region's [dc]
    is [n], then [n] successive calls of the driver all return 1, and
    the memory after the last one is the memory [recycle_region] leaves
    when called once on the region with [dc] at 0: the region is
    recycled exactly once, by the last call. *)
Theorem draining_recycles_once n lst src s r rg l :
  (SCM_CHECK_CONDITIONS = true -> lst <> 0) ->
  r <> 0 ->
  (yields_n n lst src).1 = repeat r n ->
  load_region s r = Done rg ->
  dc rg = Z.of_nat n ->
  1 <= Z.of_nat n < 2 ^ 31 ->
  consistent s rg l -> l <> [] ->
  pool_bounded POOL_BOUND s ->
  exists s',
    recycle r (store_region r (set_dc 0 rg) s) = Done s'
    /\ expire_n n lst src s = Done (repeat 1 n, (yields_n n lst src).2, s').
Proof.
  intros Hlist Hr. revert src s rg.
  induction n as [|n IH]; intros src s rg Hyields Hload Hdc Hn Hc Hne Hpool;
    [lia|].
  simpl in Hyields |- *.
  destruct (get_expired_mem lst src) as [p src1] eqn:Hget.
  destruct (yields_n n lst src1) as [ps src2] eqn:Hrest.
  simpl in Hyields. injection Hyields as -> Hps.
  rewrite (expire_call lst src s r src1 rg) by done.
  destruct n as [|n].
  - assert ((dc rg =? 1) = true) as -> by (apply Z.eqb_eq; lia).
    destruct (recycle_region_returns SCM_CHECK_CONDITIONS POOL_BOUND
                PAGE_PAYLOAD_SIZE memory_offset r
                (store_region r (set_dc 0 rg) s) (set_dc 0 rg) l)
      as [s' Hrun]; try done.
    { by apply load_store_region. }
    exists s'. split; [exact Hrun|]. rewrite Hrun. simpl in *.
    by injection Hrest as <- <-.
  - assert ((dc rg =? 1) = false) as -> by (apply Z.eqb_neq; lia).
    rewrite sint_small by lia. simpl bind.
    set (rg1 := set_dc (dc rg - 1) rg).
    set (s1 := store_region r rg1 s).
    destruct (IH src1 s1 rg1) as (s' & Hrun & Hcalls); try done.
    { by rewrite Hrest. }
    { by apply load_store_region. }
    { simpl. lia. }
    { lia. }
    exists s'. unfold s1 in Hrun. rewrite store_region_twice in Hrun.
    split; [exact Hrun|]. simpl in Hcalls. rewrite Hcalls. simpl.
    simpl in Hrest. by rewrite Hrest.
Qed.

End DrainingProperties.

(** ** A pool above its bound *)

Section AboveBound.

Variable SCM_CHECK_CONDITIONS : bool.
Variable POOL_BOUND : Z.
Variable PAGE_PAYLOAD_SIZE : Z.
Variable memory_offset : Z.

Local Abbreviation recycle :=
  (recycle_region SCM_CHECK_CONDITIONS POOL_BOUND PAGE_PAYLOAD_SIZE
     memory_offset).
Local Abbreviation payload := (payload_address memory_offset).

(** With more pages pooled than the bound allows, the loop runs to the
    end of the chain. *)
Lemma free_loop_above_bound fuel pooled s p l n :
  lseg (pages s) p l 0 ->
  n = Z.of_nat (length l) -> n < 2 ^ 32 ->
  0 <= POOL_BOUND < pooled -> pooled + 2 ^ 32 <= 2 ^ 64 ->
  (length l < fuel)%nat ->
  free_loop POOL_BOUND fuel pooled s p n = Done (free_all l s, 0, 0).
Proof.
  intros Hc Hn Hn32 Hpooled Hbound. revert fuel s p n Hc Hn Hn32.
  induction l as [|x l IH]; intros fuel s p n Hc Hn Hn32 Hfuel.
  - apply lseg_nil in Hc as ->. simpl in Hn. subst n. by destruct fuel.
  - pose proof (lseg_null_NoDup _ _ _ Hc) as [Hnotin _]%NoDup_cons.
    apply lseg_cons in Hc as (-> & Hx & pg & Hpg & Hl).
    rewrite length_cons in Hn.
    destruct fuel as [|fuel]; [simpl in Hfuel; lia|].
    simpl in Hfuel. simpl free_loop.
    rewrite (ulong_small POOL_BOUND), (ulong_small (pooled + n)) by lia.
    apply Z.eqb_neq in Hx as Hx0. rewrite Hx0. simpl negb.
    assert ((POOL_BOUND <? pooled + n) = true) as ->
      by (apply Z.ltb_lt; lia).
    simpl andb. unfold load_page. rewrite Hx0, Hpg. simpl bind.
    rewrite (ulong_small (n - 1)) by lia.
    rewrite IH; try lia; [done|].
    eapply lseg_frame; [|exact Hl]. intros y Hy. simpl.
    apply lookup_delete_ne. intros ->. done.
Qed.

Lemma pool_or_free_above_bound rg legacy l n s :
  lseg (pages s) legacy l 0 -> l <> [] ->
  n = Z.of_nat (length l) -> n < 2 ^ 32 ->
  0 <= POOL_BOUND < number_of_pooled_region_pages (descriptor_root s) ->
  number_of_pooled_region_pages (descriptor_root s) + 2 ^ 32 <= 2 ^ 64 ->
  pool_or_free POOL_BOUND rg legacy n s
  = Done (with_root
            (set_number_of_pooled_region_pages
               (number_of_pooled_region_pages (descriptor_root s))
               (descriptor_root s))
            (free_all l s)).
Proof.
  intros Hc Hne Hn Hn32 Hpooled Hbound.
  set (pooled := number_of_pooled_region_pages (descriptor_root s)) in *.
  assert (1 <= n) as Hn1 by (destruct l; [done | simpl in Hn; lia]).
  unfold pool_or_free. fold pooled.
  rewrite (ulong_small pooled), (ulong_small POOL_BOUND),
    (ulong_small (pooled + n)) by lia.
  assert ((pooled + n <=? POOL_BOUND) = false) as ->
    by (apply Z.leb_gt; lia).
  pose proof (lseg_null_length _ _ _ Hc) as Hlen.
  rewrite (free_loop_above_bound _ pooled s legacy l n) by (done || lia).
  simpl. rewrite free_all_root. fold pooled.
  rewrite Z.add_0_r, (ulong_small pooled) by lia. done.
Qed.

(** With pages to recycle, the call is the page-pool decision on the
    recyclable chain followed by the re-anchoring of the region. *)
Lemma recycle_region_reduces region s rg l :
  load_region s region = Done rg -> dc rg = 0 ->
  consistent s rg l -> recyclable s rg l <> [] ->
  recycle region s
  = (let s1 :=
       if fresh s rg
       then with_pages
              (<[firstPage rg := zero_page PAGE_PAYLOAD_SIZE]> (pages s)) s
       else s in
     let rg1 :=
       if fresh s rg
       then set_last_address_in_last_page
              (usable_bound PAGE_PAYLOAD_SIZE (payload (firstPage rg))) rg
       else rg in
     s2 <-- pool_or_free POOL_BOUND rg1
              (default 0 (head (recyclable s rg l)))
              (Z.of_nat (length (recyclable s rg l))) s1 ;;
     rg' <-- reanchor SCM_CHECK_CONDITIONS PAGE_PAYLOAD_SIZE memory_offset
               rg1 s2 ;;
     Done (store_region region rg' s2)).
Proof.
  intros Hload Hdc (Hc & Hlast & Hnum & Hnum32)%consistent_inv Hrec.
  pose proof Hload as [Hr0%Z.eqb_neq _]%load_region_inv.
  unfold recyclable in *. unfold recycle_region.
  rewrite Hr0, ensure_false, Hload. simpl bind.
  destruct l as [|fp l]; [by destruct (fresh s rg)|].
  assert (lastPage rg <> 0) as Hlast0.
  { rewrite Hlast. destruct (last (fp :: l)) as [z|] eqn:Hz;
      [|by apply last_None in Hz].
    apply last_Some_elem_of in Hz. simpl. by eapply lseg_nonnull. }
  apply lseg_cons in Hc as (Hfp & Hfp0 & pg & Hpg & Hl).
  rewrite length_cons in Hnum.
  apply Z.eqb_neq in Hfp0 as Hfp0', Hlast0 as Hlast0'.
  rewrite Hfp, Hfp0', Hlast0', Hdc. simpl orb. simpl negb.
  rewrite !ensure_false. simpl bind.
  unfold fresh in *.
  destruct (age rg =? current_time (descriptor_root s)) eqn:Hage.
  - simpl in Hrec. unfold load_page, memset_page, load_page.
    rewrite Hfp0', Hpg. simpl bind.
    destruct l as [|y l']; [done|].
    pose proof Hl as (Hy & Hy0 & _)%lseg_cons.
    apply Z.eqb_neq in Hy0 as Hy0'. rewrite Hy, Hy0'.
    cbn [number_of_region_pages set_last_address_in_last_page].
    rewrite length_cons in Hnum.
    assert ((number_of_region_pages rg <=? 1) = false) as ->
      by (apply Z.leb_gt; lia).
    rewrite ensure_false. simpl bind.
    rewrite (uint_small (number_of_region_pages rg - 1)) by lia.
    rewrite (ulong_small (number_of_region_pages rg - 1)) by lia.
    cbn [tail head default].
    replace (Z.of_nat (S (length l')))
      with (number_of_region_pages rg - 1) by lia.
    done.
  - assert ((number_of_region_pages rg =? 0) = false) as ->
      by (apply Z.eqb_neq; lia).
    rewrite ensure_false. simpl bind.
    rewrite (ulong_small (number_of_region_pages rg)) by lia.
    cbn [head default].
    replace (Z.of_nat (S (length l))) with (number_of_region_pages rg)
      by lia.
    done.
Qed.

(** X9: when the pooled count is already above the bound, the call
    frees every recyclable page, in chain order, and leaves the pool and
    its count as they are; the region is re-anchored as usual. *)
Theorem recycle_with_pool_above_bound region s rg l :
  reclaimable s region rg l ->
  recyclable s rg l <> [] ->
  0 <= POOL_BOUND < number_of_pooled_region_pages (descriptor_root s) ->
  number_of_pooled_region_pages (descriptor_root s) + 2 ^ 32 <= 2 ^ 64 ->
  exists s' rg',
    recycle region s = Done s'
    /\ freed s' = freed s ++ recyclable s rg l
    /\ region_page_pool (descriptor_root s')
       = region_page_pool (descriptor_root s)
    /\ number_of_pooled_region_pages (descriptor_root s')
       = number_of_pooled_region_pages (descriptor_root s)
    /\ load_region s' region = Done rg'
    /\ number_of_region_pages rg' = (if fresh s rg then 1 else 0)
    /\ firstPage rg' = (if fresh s rg then firstPage rg else 0)
    /\ lastPage rg' = firstPage rg'.
Proof.
  intros (Hload & Hdc & Hc) Hrec Hpooled Hbound.
  rewrite (recycle_region_reduces region s rg l) by done. cbv zeta.
  pose proof Hload as [Hr0%Z.eqb_neq _]%load_region_inv.
  apply consistent_inv in Hc as (Hc & Hlast & Hnum & Hnum32).
  assert (exists legacy,
            lseg (pages s) legacy (recyclable s rg l) 0
            /\ default 0 (head (recyclable s rg l)) = legacy
            /\ (fresh s rg = true -> firstPage rg ∉ recyclable s rg l))
    as (legacy & Hl & Hhead & Hfirst).
  { unfold recyclable in *. destruct (fresh s rg).
    - destruct l as [|fp [|y l']]; try done.
      pose proof (lseg_null_NoDup _ _ _ Hc) as [Hfpl _]%NoDup_cons.
      apply lseg_cons in Hc as (Hfp & _ & pg & _ & Hl).
      pose proof Hl as (Hy & _)%lseg_cons. rewrite Hy in Hl.
      exists y. simpl. split; [done|]. split; [done|]. by rewrite Hfp.
    - destruct l as [|fp l]; [done|].
      pose proof Hc as (Hfp & _)%lseg_cons. rewrite Hfp in Hc.
      exists fp. done. }
  assert (Z.of_nat (length (recyclable s rg l)) < 2 ^ 32) as Hlen.
  { unfold recyclable. destruct (fresh s rg); [|lia].
    destruct l; simpl in *; lia. }
  rewrite Hhead.
  assert (forall rg1 s1 d,
            age rg1 = age rg ->
            current_time d = current_time (descriptor_root s) ->
            fresh (with_root d s1) rg1 = fresh s rg) as Hsame.
  { intros rg1 s1 d Hage Htime. unfold fresh. simpl. by rewrite Hage, Htime. }
  destruct (fresh s rg) eqn:Hage.
  - rewrite (pool_or_free_above_bound _ legacy (recyclable s rg l));
      try done.
    + simpl bind. rewrite reanchor_spec. simpl bind.
      eexists _, _. split; [reflexivity|].
      split; [simpl; by rewrite free_all_freed|].
      split; [done|]. split; [done|]. split.
      { unfold load_region. rewrite Hr0. simpl.
        by rewrite lookup_insert_eq. }
      simpl. by rewrite Hsame.
    + eapply lseg_frame; [|exact Hl]. intros x Hx. simpl.
      apply lookup_insert_ne. intros <-. by apply Hfirst.
  - rewrite (pool_or_free_above_bound _ legacy (recyclable s rg l));
      try done.
    simpl bind. rewrite reanchor_spec. simpl bind.
    eexists _, _. split; [reflexivity|].
    split; [simpl; by rewrite free_all_freed|].
    split; [done|]. split; [done|]. split.
    { unfold load_region. rewrite Hr0. simpl. by rewrite lookup_insert_eq. }
    simpl. by rewrite Hsame.
Qed.

End AboveBound.

(** ** Bitmaps and bit scans ([arch.h]) *)

Lemma sint_range z : - 2 ^ 31 <= sint z < 2 ^ 31.
Proof.
  unfold sint. pose proof (Z.mod_pos_bound (z + 2 ^ 31) (2 ^ 32)). lia.
Qed.

Lemma sint_mod z : sint z mod 2 ^ 32 = z mod 2 ^ 32.
Proof. unfold sint. rewrite Zminus_mod_idemp_l. f_equal. lia. Qed.

Lemma testbit_sint z i : 0 <= i < 32 -> Z.testbit (sint z) i = Z.testbit z i.
Proof.
  intros Hi.
  rewrite <- (Z.mod_pow2_bits_low (sint z) 32 i) by lia.
  rewrite sint_mod. apply Z.mod_pow2_bits_low. lia.
Qed.

Lemma testbit_uint z i : 0 <= i < 32 -> Z.testbit (uint z) i = Z.testbit z i.
Proof. intros Hi. unfold uint. apply Z.mod_pow2_bits_low. lia. Qed.

Lemma uint_zero_iff z : - 2 ^ 31 <= z < 2 ^ 31 -> uint z = 0 <-> z = 0.
Proof.
  intros Hz. unfold uint. split; [|by intros ->].
  intros Hmod. pose proof (Z.div_mod z (2 ^ 32)). lia.
Qed.

(** The bits of the mask [1 << pos]. *)
Lemma testbit_mask pos i :
  0 <= pos < 32 -> 0 <= i < 32 ->
  Z.testbit (sint (Z.shiftl 1 pos)) i = (pos =? i).
Proof.
  intros Hpos Hi. rewrite testbit_sint by done.
  rewrite Z.shiftl_1_l. apply Z.pow2_bits_eqb. lia.
Qed.

Lemma lxor_nonneg_range n a b :
  0 < n -> 0 <= a < 2 ^ n -> 0 <= b < 2 ^ n -> 0 <= Z.lxor a b < 2 ^ n.
Proof.
  intros Hn Ha Hb.
  assert (0 <= Z.lxor a b) as Hnonneg by (apply Z.lxor_nonneg; lia).
  split; [done|].
  destruct (decide (Z.lxor a b = 0)) as [->|Hx]; [lia|].
  apply Z.log2_lt_pow2; [lia|].
  assert (forall c, 0 <= c < 2 ^ n -> Z.log2 c < n) as Hlog.
  { intros c Hc. destruct (decide (c = 0)) as [->|]; [simpl; lia|].
    apply Z.log2_lt_pow2; lia. }
  pose proof (Z.log2_lxor a b ltac:(lia) ltac:(lia)).
  pose proof (Hlog a Ha). pose proof (Hlog b Hb). lia.
Qed.

(** Exclusive or keeps two [int]s within the range of [int]. *)
Lemma lxor_int_range a b :
  - 2 ^ 31 <= a < 2 ^ 31 -> - 2 ^ 31 <= b < 2 ^ 31 ->
  - 2 ^ 31 <= Z.lxor a b < 2 ^ 31.
Proof.
  intros Ha Hb.
  assert (forall c, Z.lnot c = - c - 1) as Hlnot
    by (intros c; unfold Z.lnot; lia).
  assert (forall c, c = Z.lnot (Z.lnot c)) as Hinv
    by (intros c; by rewrite Z.lnot_involutive).
  set (a' := Z.lnot a). set (b' := Z.lnot b).
  assert (a' = - a - 1) as Ha' by apply Hlnot.
  assert (b' = - b - 1) as Hb' by apply Hlnot.
  destruct (Z.neg_nonneg_cases a) as [Ha0|Ha0],
    (Z.neg_nonneg_cases b) as [Hb0|Hb0].
  - rewrite (Hinv a), (Hinv b), Z.lxor_lnot_lnot. fold a' b'.
    pose proof (lxor_nonneg_range 31 a' b'). lia.
  - rewrite (Hinv a), <- Z.lnot_lxor_l. fold a'.
    pose proof (lxor_nonneg_range 31 a' b). rewrite Hlnot. lia.
  - rewrite (Hinv b), <- Z.lnot_lxor_r. fold b'.
    pose proof (lxor_nonneg_range 31 a b'). rewrite Hlnot. lia.
  - pose proof (lxor_nonneg_range 31 a b). lia.
Qed.

Lemma toggle_int_range bitmap pos :
  - 2 ^ 31 <= bitmap < 2 ^ 31 ->
  - 2 ^ 31 <= Arch.toggle_bit_at_pos bitmap pos < 2 ^ 31.
Proof.
  intros Hb. unfold Arch.toggle_bit_at_pos.
  apply lxor_int_range; [done | apply sint_range].
Qed.

Lemma toggle_testbit bitmap pos i :
  0 <= pos < 32 -> 0 <= i < 32 ->
  Z.testbit (Arch.toggle_bit_at_pos bitmap pos) i
  = if pos =? i then negb (Z.testbit bitmap i) else Z.testbit bitmap i.
Proof.
  intros Hpos Hi. unfold Arch.toggle_bit_at_pos.
  rewrite Z.lxor_spec, testbit_mask by done.
  destruct (pos =? i), (Z.testbit bitmap i); done.
Qed.

(** X10: [toggle_bit_at_pos] flips bit [pos] of the bitmap and no other
    of its 32 bits, and the result is an [int] again. *)
Theorem toggle_bit_flips_one_bit bitmap pos :
  - 2 ^ 31 <= bitmap < 2 ^ 31 ->
  0 <= pos < 32 ->
  - 2 ^ 31 <= Arch.toggle_bit_at_pos bitmap pos < 2 ^ 31
  /\ forall i,
       0 <= i < 32 ->
       Z.testbit (Arch.toggle_bit_at_pos bitmap pos) i
       = if pos =? i then negb (Z.testbit bitmap i) else Z.testbit bitmap i.
Proof.
  intros Hb Hpos. split; [by apply toggle_int_range|].
  intros i Hi. by apply toggle_testbit.
Qed.

(** X11: toggling the same position twice restores the bitmap, and
    toggles of two positions can be made in either order. *)
Theorem toggle_bit_twice bitmap pos pos' :
  Arch.toggle_bit_at_pos (Arch.toggle_bit_at_pos bitmap pos) pos = bitmap
  /\ Arch.toggle_bit_at_pos (Arch.toggle_bit_at_pos bitmap pos) pos'
     = Arch.toggle_bit_at_pos (Arch.toggle_bit_at_pos bitmap pos') pos.
Proof.
  unfold Arch.toggle_bit_at_pos. split.
  - by rewrite Z.lxor_assoc, Z.lxor_nilpotent, Z.lxor_0_r.
  - rewrite !Z.lxor_assoc. f_equal. apply Z.lxor_comm.
Qed.

(** The upward scan stops on the first set bit. *)
Lemma scan_up_spec n src i :
  0 <= i ->
  (exists j, i <= j < i + Z.of_nat n /\ Z.testbit src j = true) ->
  i <= Arch.scan_up n src i < i + Z.of_nat n
  /\ Z.testbit src (Arch.scan_up n src i) = true
  /\ forall j, i <= j < Arch.scan_up n src i -> Z.testbit src j = false.
Proof.
  revert i. induction n as [|n IH]; intros i Hi (j & Hj & Hbit); [lia|].
  simpl. destruct (Z.testbit src i) eqn:Hnow.
  - repeat split; [lia | lia | done | lia].
  - destruct (IH (i + 1)) as (Hr & Hset & Hclear); [lia | |].
    { exists j. split; [|done].
      destruct (decide (j = i)) as [->|]; [congruence | lia]. }
    repeat split; [lia | lia | done |].
    intros k Hk. destruct (decide (k = i)) as [->|]; [done|].
    apply Hclear. lia.
Qed.

(** The downward scan stops on the first set bit. *)
Lemma scan_down_spec n src i :
  Z.of_nat n <= i + 1 ->
  (exists j, i - Z.of_nat n < j <= i /\ Z.testbit src j = true) ->
  i - Z.of_nat n < Arch.scan_down n src i <= i
  /\ Z.testbit src (Arch.scan_down n src i) = true
  /\ forall j, Arch.scan_down n src i < j <= i -> Z.testbit src j = false.
Proof.
  revert i. induction n as [|n IH]; intros i Hi (j & Hj & Hbit); [lia|].
  simpl. destruct (Z.testbit src i) eqn:Hnow.
  - repeat split; [lia | lia | done | lia].
  - destruct (IH (i - 1)) as (Hr & Hset & Hclear); [lia | |].
    { exists j. split; [|done].
      destruct (decide (j = i)) as [->|]; [congruence | lia]. }
    repeat split; [lia | lia | done |].
    intros k Hk. destruct (decide (k = i)) as [->|]; [done|].
    apply Hclear. lia.
Qed.

(** A non-zero 32-bit operand has a set bit among its 32 bits. *)
Lemma uint_has_set_bit bitmap :
  uint bitmap <> 0 ->
  exists j, 0 <= j < 32 /\ Z.testbit (uint bitmap) j = true.
Proof.
  intros Hne. unfold uint in *.
  pose proof (Z.mod_pos_bound bitmap (2 ^ 32) ltac:(lia)) as Hrange.
  exists (Z.log2 (bitmap mod 2 ^ 32)). split.
  - split; [apply Z.log2_nonneg|]. apply Z.log2_lt_pow2; lia.
  - apply Z.bit_log2. lia.
Qed.

Lemma bsfl_char bitmap :
  - 2 ^ 31 <= bitmap < 2 ^ 31 ->
  if decide (bitmap = 0) then Arch.bsfl bitmap = -1
  else 0 <= Arch.bsfl bitmap < 32
       /\ Z.testbit bitmap (Arch.bsfl bitmap) = true
       /\ forall j, 0 <= j < Arch.bsfl bitmap -> Z.testbit bitmap j = false.
Proof.
  intros Hb. unfold Arch.bsfl. cbv zeta.
  destruct (decide (bitmap = 0)) as [->|Hne]; [done|].
  assert (uint bitmap <> 0) as Hu by (by rewrite uint_zero_iff).
  apply Z.eqb_neq in Hu as Hu'. rewrite Hu'.
  destruct (scan_up_spec 32 (uint bitmap) 0) as (Hr & Hset & Hclear);
    [lia | by apply uint_has_set_bit |].
  rewrite testbit_uint in Hset by lia.
  repeat split; [lia | lia | done |].
  intros j Hj. rewrite <- (testbit_uint bitmap j) by lia. by apply Hclear.
Qed.

Lemma bsrl_char bitmap :
  - 2 ^ 31 <= bitmap < 2 ^ 31 ->
  if decide (bitmap = 0) then Arch.bsrl bitmap = -1
  else 0 <= Arch.bsrl bitmap < 32
       /\ Z.testbit bitmap (Arch.bsrl bitmap) = true
       /\ forall j, Arch.bsrl bitmap < j < 32 -> Z.testbit bitmap j = false.
Proof.
  intros Hb. unfold Arch.bsrl. cbv zeta.
  destruct (decide (bitmap = 0)) as [->|Hne]; [done|].
  assert (uint bitmap <> 0) as Hu by (by rewrite uint_zero_iff).
  apply Z.eqb_neq in Hu as Hu'. rewrite Hu'.
  destruct (scan_down_spec 32 (uint bitmap) 31) as (Hr & Hset & Hclear).
  { simpl. lia. }
  { destruct (uint_has_set_bit bitmap Hu) as (j & Hj & Hbit).
    exists j. split; [simpl; lia | done]. }
  change (Z.of_nat 32) with 32 in Hr.
  rewrite testbit_uint in Hset by lia.
  repeat split; [lia | lia | done |].
  intros j Hj. rewrite <- (testbit_uint bitmap j) by lia.
  apply Hclear. lia.
Qed.

(** X12: [bsfl] returns -1 exactly on the empty bitmap; otherwise it
    returns the index, between 0 and 31, of the least significant set
    bit: that bit is set and every bit below it is clear. *)
Theorem bsfl_least_significant_bit bitmap :
  - 2 ^ 31 <= bitmap < 2 ^ 31 ->
  (Arch.bsfl bitmap = -1 <-> bitmap = 0)
  /\ (bitmap <> 0 ->
      0 <= Arch.bsfl bitmap < 32
      /\ Z.testbit bitmap (Arch.bsfl bitmap) = true
      /\ forall j, 0 <= j < Arch.bsfl bitmap -> Z.testbit bitmap j = false).
Proof.
  intros Hb. pose proof (bsfl_char bitmap Hb) as Hchar.
  destruct (decide (bitmap = 0)) as [Hz|Hne].
  - split; [done|]. intros Hne. done.
  - split; [|done]. split; [|done]. lia.
Qed.

(** X13: [bsrl] returns -1 exactly on the empty bitmap; otherwise it
    returns the index, between 0 and 31, of the most significant set bit:
    that bit is set and every bit above it is clear.  For a positive
    bitmap this is the integer part of its binary logarithm. *)
Theorem bsrl_most_significant_bit bitmap :
  - 2 ^ 31 <= bitmap < 2 ^ 31 ->
  (Arch.bsrl bitmap = -1 <-> bitmap = 0)
  /\ (bitmap <> 0 ->
      0 <= Arch.bsrl bitmap < 32
      /\ Z.testbit bitmap (Arch.bsrl bitmap) = true
      /\ forall j, Arch.bsrl bitmap < j < 32 -> Z.testbit bitmap j = false)
  /\ (0 < bitmap -> Arch.bsrl bitmap = Z.log2 bitmap).
Proof.
  intros Hb. pose proof (bsrl_char bitmap Hb) as Hchar.
  destruct (decide (bitmap = 0)) as [Hz|Hne].
  - split; [done|]. split; [done|]. lia.
  - destruct Hchar as (Hr & Hset & Hclear).
    split; [split; [lia | done]|]. split; [done|].
    intros Hpos.
    assert (Z.log2 bitmap < 31) as Hlog by (apply Z.log2_lt_pow2; lia).
    pose proof (Z.log2_nonneg bitmap) as Hlog0.
    destruct (Z.lt_trichotomy (Arch.bsrl bitmap) (Z.log2 bitmap))
      as [Hlt|[Heq|Hgt]]; [|done|].
    + pose proof (Z.bit_log2 bitmap Hpos) as Htop.
      rewrite Hclear in Htop; [done | lia].
    + rewrite Z.bits_above_log2 in Hset; [done | lia | lia].
Qed.

(** X14: scanning a bitmap in which only bit [pos] has been set finds
    [pos], from either end. *)
Theorem scan_finds_toggled_bit pos :
  0 <= pos < 32 ->
  Arch.bsfl (Arch.toggle_bit_at_pos 0 pos) = pos
  /\ Arch.bsrl (Arch.toggle_bit_at_pos 0 pos) = pos.
Proof.
  intros Hpos.
  set (b := Arch.toggle_bit_at_pos 0 pos).
  assert (- 2 ^ 31 <= b < 2 ^ 31) as Hb by (apply toggle_int_range; lia).
  assert (forall i, 0 <= i < 32 -> Z.testbit b i = (pos =? i)) as Hbits.
  { intros i Hi. unfold b. rewrite toggle_testbit, Z.bits_0 by done.
    by destruct (pos =? i). }
  assert (b <> 0) as Hne.
  { intros Hz. specialize (Hbits pos Hpos).
    rewrite Hz, Z.bits_0, Z.eqb_refl in Hbits. done. }
  pose proof (bsfl_char b Hb) as Hlow. pose proof (bsrl_char b Hb) as Hhigh.
  destruct (decide (b = 0)); [done|].
  destruct Hlow as (Hl & Hlset & _). destruct Hhigh as (Hh & Hhset & _).
  rewrite (Hbits _ Hl) in Hlset. rewrite (Hbits _ Hh) in Hhset.
  apply Z.eqb_eq in Hlset, Hhset. split; [exact (eq_sym Hlset) | exact (eq_sym Hhset)].
Qed.

(** X15: scanning and clearing visits the set bits upwards.  When the bit
    that [bsfl] reports is toggled, that bit is clear, the other bits are
    as before, and the next [bsfl] returns -1 or a higher index. *)
Theorem bsfl_after_clearing bitmap :
  - 2 ^ 31 <= bitmap < 2 ^ 31 ->
  bitmap <> 0 ->
  let bitmap' := Arch.toggle_bit_at_pos bitmap (Arch.bsfl bitmap) in
  Z.testbit bitmap' (Arch.bsfl bitmap) = false
  /\ (forall i, 0 <= i < 32 -> i <> Arch.bsfl bitmap ->
        Z.testbit bitmap' i = Z.testbit bitmap i)
  /\ (Arch.bsfl bitmap' = -1 \/ Arch.bsfl bitmap < Arch.bsfl bitmap' < 32).
Proof.
  intros Hb Hne bitmap'.
  pose proof (bsfl_char bitmap Hb) as Hchar.
  destruct (decide (bitmap = 0)); [done|].
  destruct Hchar as (Hr & Hset & Hclear).
  assert (- 2 ^ 31 <= bitmap' < 2 ^ 31) as Hb'
    by (by apply toggle_int_range).
  assert (forall i, 0 <= i <= Arch.bsfl bitmap -> Z.testbit bitmap' i = false)
    as Hlow.
  { intros i Hi. unfold bitmap'. rewrite toggle_testbit by lia.
    destruct (Arch.bsfl bitmap =? i) eqn:Heq.
    - apply Z.eqb_eq in Heq. rewrite <- Heq, Hset. done.
    - apply Z.eqb_neq in Heq. apply Hclear. lia. }
  split; [apply Hlow; lia|]. split.
  - intros i Hi Hne'. unfold bitmap'. rewrite toggle_testbit by lia.
    destruct (Arch.bsfl bitmap =? i) eqn:Heq; [|done].
    apply Z.eqb_eq in Heq. done.
  - pose proof (bsfl_char bitmap' Hb') as Hchar'.
    destruct (decide (bitmap' = 0)); [by left|]. right.
    destruct Hchar' as (Hr' & Hset' & _).
    destruct (Z.le_gt_cases (Arch.bsfl bitmap') (Arch.bsfl bitmap))
      as [Hle|Hgt]; [|lia].
    rewrite Hlow in Hset' by lia. done.
Qed.

(** X16: [rdtsc] returns the processor's time-stamp counter: putting the
    low half into [lo], the high half into [hi] and computing
    [lo | hi << 32] in 64 bits loses nothing. *)
Theorem rdtsc_returns_counter tsc :
  0 <= tsc < 2 ^ 64 -> Arch.rdtsc tsc = tsc.
Proof.
  intros Htsc. unfold Arch.rdtsc, ullong, uint. cbv zeta.
  apply Z.bits_inj'. intros n Hn.
  rewrite Z.lor_spec, !Z.testbit_mod_pow2 by lia.
  destruct (Z.lt_ge_cases n 32) as [Hlow|Hhigh].
  - rewrite Z.shiftl_spec_low by lia.
    assert ((n <? 64) = true) as -> by (apply Z.ltb_lt; lia).
    assert ((n <? 32) = true) as -> by (apply Z.ltb_lt; lia).
    simpl. by rewrite orb_false_r.
  - assert ((n <? 32) = false) as -> by (apply Z.ltb_ge; lia).
    rewrite Z.shiftl_spec by lia.
    rewrite !Z.testbit_mod_pow2, Z.shiftr_spec by lia.
    replace (n - 32 + 32) with n by lia.
    destruct (Z.lt_ge_cases n 64) as [Hin|Hout].
    + assert ((n <? 64) = true) as -> by (apply Z.ltb_lt; lia).
      assert ((n - 32 <? 64) = true) as -> by (apply Z.ltb_lt; lia).
      assert ((n - 32 <? 32) = true) as -> by (apply Z.ltb_lt; lia).
      done.
    + assert ((n <? 64) = false) as -> by (apply Z.ltb_ge; lia).
      simpl. symmetry.
      destruct (decide (tsc = 0)) as [->|]; [apply Z.bits_0|].
      apply Z.bits_above_log2; [lia|].
      assert (Z.log2 tsc < 64) by (apply Z.log2_lt_pow2; lia). lia.
Qed.

(** X17: a counter that is released once too often never reports the
    transition to zero again.  Starting from a counter at or below 0,
    however many calls of [atomic_int_dec_and_test] follow (short of
    wrapping around [INT_MIN]), none of them returns true. *)
Theorem dec_and_test_below_zero (schedule : list nat) cell :
  cell <= 0 ->
  - 2 ^ 31 <= cell - Z.of_nat (length schedule) ->
  Arch.observers (Arch.run_dec_and_test schedule cell).1 = []
  /\ (Arch.run_dec_and_test schedule cell).2
     = cell - Z.of_nat (length schedule).
Proof.
  revert cell. induction schedule as [|t rest IH]; intros cell Hcell Hrange.
  - simpl. split; [done | lia].
  - rewrite length_cons in Hrange. simpl.
    unfold Arch.atomic_int_dec_and_test, Arch.atomic_int_exchange_and_add.
    rewrite sint_small by lia.
    destruct (IH (cell + -1)) as (IH1 & IH2); [lia | lia |].
    destruct (Arch.run_dec_and_test rest (cell + -1)) as [results final].
    assert ((cell =? 1) = false) as -> by (apply Z.eqb_neq; lia).
    simpl in *. unfold Arch.observers in *.
    rewrite filter_cons_False by (simpl; done).
    split; [exact IH1 | lia].
Qed.

(** ** Atomic additions *)

Lemma sint_add_sint z w : sint (sint z + w) = sint (z + w).
Proof.
  unfold sint. f_equal.
  replace ((z + 2 ^ 31) mod 2 ^ 32 - 2 ^ 31 + w + 2 ^ 31)
    with ((z + 2 ^ 31) mod 2 ^ 32 + w) by lia.
  rewrite Zplus_mod_idemp_l. f_equal. lia.
Qed.

(** X18: atomic additions to one counter accumulate modulo 2^32: two of
    them leave what one addition of the sum would leave, so the counter
    does not depend on the order in which the hardware serialises
    them. *)
Theorem atomic_adds_commute cell v w :
  Arch.atomic_int_add (Arch.atomic_int_add cell v) w = sint (cell + (v + w))
  /\ Arch.atomic_int_add (Arch.atomic_int_add cell v) w
     = Arch.atomic_int_add (Arch.atomic_int_add cell w) v.
Proof.
  unfold Arch.atomic_int_add. rewrite !sint_add_sint.
  split; f_equal; lia.
Qed.

(** X19: [atomic_int_inc] and the decrement of [atomic_int_dec_and_test]
    undo each other on every [int], wrap-around at [INT_MAX] and
    [INT_MIN] included; and a decrement that follows an increment
    returns true exactly when the counter was 0 before the increment. *)
Theorem inc_and_dec_cancel cell :
  - 2 ^ 31 <= cell < 2 ^ 31 ->
  (Arch.atomic_int_dec_and_test (Arch.atomic_int_inc cell)).2 = cell
  /\ Arch.atomic_int_inc (Arch.atomic_int_dec_and_test cell).2 = cell
  /\ (Arch.atomic_int_dec_and_test (Arch.atomic_int_inc cell)).1
     = (cell =? 0).
Proof.
  intros Hcell.
  unfold Arch.atomic_int_dec_and_test, Arch.atomic_int_exchange_and_add,
    Arch.atomic_int_inc, Arch.atomic_int_add.
  cbn [fst snd]. rewrite !sint_add_sint.
  replace (cell + 1 + -1) with cell by lia.
  replace (cell + -1 + 1) with cell by lia.
  rewrite sint_small by done.
  split; [done|]. split; [done|].
  destruct (decide (cell = 2 ^ 31 - 1)) as [->|Hmax].
  - reflexivity.
  - rewrite sint_small by lia.
    destruct (Z.eqb_spec cell 0) as [->|Hne]; [done|].
    apply Z.eqb_neq. lia.
Qed.


(** ** The further properties at work on the example memories *)

Ltac by_decision := apply (bool_decide_unpack _); by_evaluation.

(** Scenario A again: the pool of 8 pages receives the last two of the
    four recyclable pages. *)
Lemma pool_stays_consistent_witness :
  reclaimable (Examples.memory 5 3 3 8) 64 (Examples.region 5 3)
    (Examples.chain 0 5)
  /\ Examples.chain 0 5 <> []
  /\ pool_bounded 10 (Examples.memory 5 3 3 8)
  /\ pool_consistent (Examples.memory 5 3 3 8) (Examples.chain 1048576 8)
  /\ NoDup (Examples.chain 0 5 ++ Examples.chain 1048576 8)
  /\ exists s',
       Examples.recycle true 64 (Examples.memory 5 3 3 8) = Done s'
       /\ pool_consistent s'
            ([16384; 20480] ++ Examples.chain 1048576 8).
Proof.
  assert (reclaimable (Examples.memory 5 3 3 8) 64 (Examples.region 5 3)
            (Examples.chain 0 5)) as H1
    by (repeat split; by_evaluation).
  assert (Examples.chain 0 5 <> []) as H2 by (vm_compute; discriminate).
  assert (pool_bounded 10 (Examples.memory 5 3 3 8)) as H3
    by (split; simpl; lia).
  assert (pool_consistent (Examples.memory 5 3 3 8)
            (Examples.chain 1048576 8)) as H4 by by_evaluation.
  assert (NoDup (Examples.chain 0 5 ++ Examples.chain 1048576 8)) as H5
    by by_decision.
  split; [exact H1|]. split; [exact H2|]. split; [exact H3|].
  split; [exact H4|]. split; [exact H5|].
  exact (pool_stays_consistent true 10 48 16 64 _ _ _ _ H1 H2 H3 H4 H5).
Defined.

(** A zombie region with 5 pages next to a pool of 8. *)
Lemma recycle_region_keeps_other_regions_witness :
  Examples.recycle false 64 (Examples.memory 5 2 3 8)
  = Done (Examples.recycled false (Examples.memory 5 2 3 8))
  /\ exists rg rg',
       load_region (Examples.memory 5 2 3 8) 64 = Done rg
       /\ load_region (Examples.recycled false (Examples.memory 5 2 3 8)) 64
          = Done rg'
       /\ age rg' = age rg
       /\ (dc rg = 0 -> dc rg' = 0)
       /\ (false = true -> dc rg' = 0)
       /\ (forall r,
             r <> 64 ->
             regions (Examples.recycled false (Examples.memory 5 2 3 8))
             !! r
             = regions (Examples.memory 5 2 3 8) !! r)
       /\ current_time
            (descriptor_root
               (Examples.recycled false (Examples.memory 5 2 3 8)))
          = current_time (descriptor_root (Examples.memory 5 2 3 8)).
Proof.
  assert (Examples.recycle false 64 (Examples.memory 5 2 3 8)
          = Done (Examples.recycled false (Examples.memory 5 2 3 8))) as H1
    by by_evaluation.
  split; [exact H1|].
  exact (recycle_region_keeps_other_regions false 10 48 16 64 _ _ H1).
Defined.

Lemma recycle_region_page_accounting_witness :
  Examples.recycle true 64 (Examples.memory 5 2 3 8)
  = Done (Examples.recycled true (Examples.memory 5 2 3 8))
  /\ exists rg released,
       load_region (Examples.memory 5 2 3 8) 64 = Done rg
       /\ freed (Examples.recycled true (Examples.memory 5 2 3 8))
          = freed (Examples.memory 5 2 3 8) ++ released
       /\ dom (pages (Examples.recycled true (Examples.memory 5 2 3 8)))
          = dom (pages (Examples.memory 5 2 3 8)) ∖ list_to_set released
       /\ (forall x,
             x ∈ released ->
             pages (Examples.recycled true (Examples.memory 5 2 3 8)) !! x
             = None)
       /\ (forall x,
             x <> firstPage rg -> x <> lastPage rg -> x ∉ released ->
             pages (Examples.recycled true (Examples.memory 5 2 3 8)) !! x
             = pages (Examples.memory 5 2 3 8) !! x).
Proof.
  assert (Examples.recycle true 64 (Examples.memory 5 2 3 8)
          = Done (Examples.recycled true (Examples.memory 5 2 3 8))) as H1
    by by_evaluation.
  split; [exact H1|].
  exact (recycle_region_page_accounting true 10 48 16 64 _ _ H1).
Defined.

(** A region to which one descriptor still refers. *)
Lemma checked_build_exits_iff_witness :
  load_region (Examples.referenced 1 2 3 3 0) 64
  = Done (set_dc 1 (Examples.region 2 3))
  /\ consistent (Examples.referenced 1 2 3 3 0)
       (set_dc 1 (Examples.region 2 3)) (Examples.chain 0 2)
  /\ pool_bounded 10 (Examples.referenced 1 2 3 3 0)
  /\ (Examples.recycle true 64 (Examples.referenced 1 2 3 3 0) = Abort
      <-> dc (set_dc 1 (Examples.region 2 3)) <> 0
          \/ Examples.chain 0 2 = [])
  /\ (dc (set_dc 1 (Examples.region 2 3)) = 0 ->
      Examples.chain 0 2 <> [] ->
      exists s',
        Examples.recycle true 64 (Examples.referenced 1 2 3 3 0)
        = Done s').
Proof.
  assert (load_region (Examples.referenced 1 2 3 3 0) 64
          = Done (set_dc 1 (Examples.region 2 3))) as H1 by by_evaluation.
  assert (consistent (Examples.referenced 1 2 3 3 0)
            (set_dc 1 (Examples.region 2 3)) (Examples.chain 0 2)) as H2
    by by_evaluation.
  assert (pool_bounded 10 (Examples.referenced 1 2 3 3 0)) as H3
    by (split; simpl; lia).
  split; [exact H1|]. split; [exact H2|]. split; [exact H3|].
  exact (checked_build_exits_iff 10 48 16 64 _ _ _ H1 H2 H3).
Defined.

(** A zombie region, and further down a fresh region, without pages. *)
Lemma production_build_on_empty_region_witness :
  load_region (Examples.pristine 2 3 3) 64 = Done (mk_region 0 0 0 0 0 0 2)
  /\ consistent (Examples.pristine 2 3 3) (mk_region 0 0 0 0 0 0 2) []
  /\ recycle_region false 10 48 16 64 (Examples.pristine 2 3 3)
     = Done (store_region 64 (set_dc 0 (mk_region 0 0 0 0 0 0 2))
               (Examples.pristine 2 3 3)).
Proof.
  assert (load_region (Examples.pristine 2 3 3) 64
          = Done (mk_region 0 0 0 0 0 0 2)) as H1 by by_evaluation.
  assert (consistent (Examples.pristine 2 3 3) (mk_region 0 0 0 0 0 0 2) [])
    as H2 by by_evaluation.
  split; [exact H1|]. split; [exact H2|].
  exact (production_build_on_empty_region 10 48 16 64 _ _ H1 H2).
Defined.

Example production_build_on_fresh_empty_region :
  recycle_region false 10 48 16 64 (Examples.pristine 3 3 3) = Fault.
Proof. by_evaluation. Qed.

(** A fresh region with 3 pages next to an empty pool, recycled twice. *)
Lemma recycle_fresh_region_twice_witness :
  reclaimable (Examples.memory 3 3 3 0) 64 (Examples.region 3 3)
    (4096 :: [8192; 12288])
  /\ [8192; 12288] <> []
  /\ fresh (Examples.memory 3 3 3 0) (Examples.region 3 3) = true
  /\ pool_bounded 10 (Examples.memory 3 3 3 0)
  /\ exists s1 s2 rg1,
       Examples.recycle true 64 (Examples.memory 3 3 3 0) = Done s1
       /\ load_region s1 64 = Done rg1
       /\ last_address_in_last_page rg1 = 4160
       /\ Examples.recycle true 64 s1 = Done s2
       /\ s2 = store_region 64
                 (set_last_address_in_last_page 4159 rg1) s1.
Proof.
  assert (reclaimable (Examples.memory 3 3 3 0) 64 (Examples.region 3 3)
            (4096 :: [8192; 12288])) as H1
    by (repeat split; by_evaluation).
  assert ([8192; 12288] <> []) as H2 by discriminate.
  assert (fresh (Examples.memory 3 3 3 0) (Examples.region 3 3) = true)
    as H3 by reflexivity.
  assert (pool_bounded 10 (Examples.memory 3 3 3 0)) as H4
    by (split; simpl; lia).
  split; [exact H1|]. split; [exact H2|]. split; [exact H3|].
  split; [exact H4|].
  exact (recycle_fresh_region_twice true 10 48 16 64 _ _ _ _ H1 H2 H3 H4).
Defined.

(** A zombie region with 2 pages next to a pool of 3, recycled twice. *)
Lemma recycle_zombie_region_twice_witness :
  reclaimable (Examples.memory 2 1 3 3) 64 (Examples.region 2 1)
    (Examples.chain 0 2)
  /\ Examples.chain 0 2 <> []
  /\ fresh (Examples.memory 2 1 3 3) (Examples.region 2 1) = false
  /\ pool_bounded 10 (Examples.memory 2 1 3 3)
  /\ exists s1,
       Examples.recycle false 64 (Examples.memory 2 1 3 3) = Done s1
       /\ Examples.recycle false 64 s1 = Done s1
       /\ Examples.recycle true 64 s1 = Abort.
Proof.
  assert (reclaimable (Examples.memory 2 1 3 3) 64 (Examples.region 2 1)
            (Examples.chain 0 2)) as H1
    by (repeat split; by_evaluation).
  assert (Examples.chain 0 2 <> []) as H2 by (vm_compute; discriminate).
  assert (fresh (Examples.memory 2 1 3 3) (Examples.region 2 1) = false)
    as H3 by reflexivity.
  assert (pool_bounded 10 (Examples.memory 2 1 3 3)) as H4
    by (split; simpl; lia).
  split; [exact H1|]. split; [exact H2|]. split; [exact H3|].
  split; [exact H4|].
  exact (recycle_zombie_region_twice false 10 48 16 64 _ _ _ H1 H2 H3 H4).
Defined.

(** Three descriptors of one region with 2 pages expire, one after the
    other. *)
Lemma draining_recycles_once_witness :
  (7 <> 0)
  /\ (yields (list Z) Examples.take_first 3 7 [64; 64; 64]).1 = repeat 64 3
  /\ load_region (Examples.referenced 3 2 3 3 0) 64
     = Done (set_dc 3 (Examples.region 2 3))
  /\ consistent (Examples.referenced 3 2 3 3 0)
       (set_dc 3 (Examples.region 2 3)) (Examples.chain 0 2)
  /\ pool_bounded 10 (Examples.referenced 3 2 3 3 0)
  /\ exists s',
       Examples.recycle true 64
         (store_region 64 (set_dc 0 (set_dc 3 (Examples.region 2 3)))
            (Examples.referenced 3 2 3 3 0))
       = Done s'
       /\ expire_repeatedly true 10 48 16 (list Z) Examples.take_first 3 7
            [64; 64; 64] (Examples.referenced 3 2 3 3 0)
          = Done (repeat 1 3,
                  (yields (list Z) Examples.take_first 3 7 [64; 64; 64]).2,
                  s').
Proof.
  assert (7 <> 0) as H1 by lia.
  assert (64 <> 0) as H2 by lia.
  assert ((yields (list Z) Examples.take_first 3 7 [64; 64; 64]).1
          = repeat 64 3) as H3 by reflexivity.
  assert (load_region (Examples.referenced 3 2 3 3 0) 64
          = Done (set_dc 3 (Examples.region 2 3))) as H4 by by_evaluation.
  assert (dc (set_dc 3 (Examples.region 2 3)) = Z.of_nat 3) as H5
    by reflexivity.
  assert (1 <= Z.of_nat 3 < 2 ^ 31) as H6 by lia.
  assert (consistent (Examples.referenced 3 2 3 3 0)
            (set_dc 3 (Examples.region 2 3)) (Examples.chain 0 2)) as H7
    by by_evaluation.
  assert (Examples.chain 0 2 <> []) as H8 by (vm_compute; discriminate).
  assert (pool_bounded 10 (Examples.referenced 3 2 3 3 0)) as H9
    by (split; simpl; lia).
  split; [exact H1|]. split; [exact H3|]. split; [exact H4|].
  split; [exact H7|]. split; [exact H9|].
  exact (draining_recycles_once true 10 48 16 (list Z) Examples.take_first
           3 7 [64; 64; 64] _ 64 _ _ (fun _ => H1) H2 H3 H4 H5 H6 H7 H8 H9).
Defined.

(** A fresh region with 3 pages next to a pool of 12 pages, two above the
    bound of 10. *)
Lemma recycle_with_pool_above_bound_witness :
  reclaimable (Examples.memory 3 3 3 12) 64 (Examples.region 3 3)
    (Examples.chain 0 3)
  /\ 0 <= 10
     < number_of_pooled_region_pages
         (descriptor_root (Examples.memory 3 3 3 12))
  /\ exists s' rg',
       Examples.recycle true 64 (Examples.memory 3 3 3 12) = Done s'
       /\ freed s' = [] ++ [8192; 12288]
       /\ region_page_pool (descriptor_root s') = 1048576 + 4096
       /\ number_of_pooled_region_pages (descriptor_root s') = 12
       /\ load_region s' 64 = Done rg'
       /\ number_of_region_pages rg' = 1
       /\ firstPage rg' = 4096
       /\ lastPage rg' = firstPage rg'.
Proof.
  assert (reclaimable (Examples.memory 3 3 3 12) 64 (Examples.region 3 3)
            (Examples.chain 0 3)) as H1
    by (repeat split; by_evaluation).
  assert (recyclable (Examples.memory 3 3 3 12) (Examples.region 3 3)
            (Examples.chain 0 3) <> []) as H2
    by (vm_compute; discriminate).
  assert (0 <= 10
          < number_of_pooled_region_pages
              (descriptor_root (Examples.memory 3 3 3 12))) as H3
    by (simpl; lia).
  assert (number_of_pooled_region_pages
            (descriptor_root (Examples.memory 3 3 3 12)) + 2 ^ 32
          <= 2 ^ 64) as H4 by (simpl; lia).
  split; [exact H1|]. split; [exact H3|].
  exact (recycle_with_pool_above_bound true 10 48 16 64 _ _ _ H1 H2 H3 H4).
Defined.

(** The sign bit of the bitmap 5 is toggled. *)
Lemma toggle_bit_flips_one_bit_witness :
  - 2 ^ 31 <= Arch.toggle_bit_at_pos 5 31 < 2 ^ 31
  /\ forall i,
       0 <= i < 32 ->
       Z.testbit (Arch.toggle_bit_at_pos 5 31) i
       = if 31 =? i then negb (Z.testbit 5 i) else Z.testbit 5 i.
Proof.
  assert (- 2 ^ 31 <= 5 < 2 ^ 31) as H1 by lia.
  assert (0 <= 31 < 32) as H2 by lia.
  exact (toggle_bit_flips_one_bit 5 31 H1 H2).
Defined.

(** The bitmap 40 has the bits 3 and 5 set. *)
Lemma bsfl_least_significant_bit_witness :
  (Arch.bsfl 40 = -1 <-> 40 = 0)
  /\ (40 <> 0 ->
      0 <= Arch.bsfl 40 < 32
      /\ Z.testbit 40 (Arch.bsfl 40) = true
      /\ forall j, 0 <= j < Arch.bsfl 40 -> Z.testbit 40 j = false).
Proof.
  assert (- 2 ^ 31 <= 40 < 2 ^ 31) as H1 by lia.
  exact (bsfl_least_significant_bit 40 H1).
Defined.

Lemma bsrl_most_significant_bit_witness :
  (Arch.bsrl 40 = -1 <-> 40 = 0)
  /\ (40 <> 0 ->
      0 <= Arch.bsrl 40 < 32
      /\ Z.testbit 40 (Arch.bsrl 40) = true
      /\ forall j, Arch.bsrl 40 < j < 32 -> Z.testbit 40 j = false)
  /\ (0 < 40 -> Arch.bsrl 40 = Z.log2 40).
Proof.
  assert (- 2 ^ 31 <= 40 < 2 ^ 31) as H1 by lia.
  exact (bsrl_most_significant_bit 40 H1).
Defined.

(** Only the sign bit is set. *)
Lemma scan_finds_toggled_bit_witness :
  Arch.bsfl (Arch.toggle_bit_at_pos 0 31) = 31
  /\ Arch.bsrl (Arch.toggle_bit_at_pos 0 31) = 31.
Proof.
  assert (0 <= 31 < 32) as H1 by lia.
  exact (scan_finds_toggled_bit 31 H1).
Defined.

(** Bit 3 of the bitmap 40 is cleared; bit 5 is found next. *)
Lemma bsfl_after_clearing_witness :
  Z.testbit (Arch.toggle_bit_at_pos 40 (Arch.bsfl 40)) (Arch.bsfl 40) = false
  /\ (forall i, 0 <= i < 32 -> i <> Arch.bsfl 40 ->
        Z.testbit (Arch.toggle_bit_at_pos 40 (Arch.bsfl 40)) i
        = Z.testbit 40 i)
  /\ (Arch.bsfl (Arch.toggle_bit_at_pos 40 (Arch.bsfl 40)) = -1
      \/ Arch.bsfl 40
         < Arch.bsfl (Arch.toggle_bit_at_pos 40 (Arch.bsfl 40)) < 32).
Proof.
  assert (- 2 ^ 31 <= 40 < 2 ^ 31) as H1 by lia.
  assert (40 <> 0) as H2 by lia.
  exact (bsfl_after_clearing 40 H1 H2).
Defined.

(** A counter with both halves in use. *)
Lemma rdtsc_returns_counter_witness :
  Arch.rdtsc (2 ^ 40 + 7) = 2 ^ 40 + 7.
Proof.
  assert (0 <= 2 ^ 40 + 7 < 2 ^ 64) as H1 by lia.
  exact (rdtsc_returns_counter (2 ^ 40 + 7) H1).
Defined.

(** Two more releases of a counter that is at 0 already. *)
Lemma dec_and_test_below_zero_witness :
  Arch.observers (Arch.run_dec_and_test [0%nat; 1%nat] 0).1 = []
  /\ (Arch.run_dec_and_test [0%nat; 1%nat] 0).2 = -2.
Proof.
  assert (0 <= 0) as H1 by lia.
  assert (- 2 ^ 31 <= 0 - Z.of_nat (length [0%nat; 1%nat])) as H2
    by (simpl; lia).
  exact (dec_and_test_below_zero [0%nat; 1%nat] 0 H1 H2).
Defined.

(** The counter at [INT_MAX]: the increment wraps to [INT_MIN] and the
    decrement wraps back. *)
Lemma inc_and_dec_cancel_witness :
  (Arch.atomic_int_dec_and_test (Arch.atomic_int_inc (2 ^ 31 - 1))).2
  = 2 ^ 31 - 1
  /\ Arch.atomic_int_inc (Arch.atomic_int_dec_and_test (2 ^ 31 - 1)).2
     = 2 ^ 31 - 1
  /\ (Arch.atomic_int_dec_and_test (Arch.atomic_int_inc (2 ^ 31 - 1))).1
     = (2 ^ 31 - 1 =? 0).
Proof.
  assert (- 2 ^ 31 <= 2 ^ 31 - 1 < 2 ^ 31) as H1 by lia.
  exact (inc_and_dec_cancel (2 ^ 31 - 1) H1).
Defined.

